(** * Laptop-Recommendation (LareC): a shallow embedding of the decision
    engine and of the questionnaire frontend, and proofs of their properties.

    The backend decision engine ([decision_engine.py]) is not part of the
    sources; its model below follows the spec (sections 4.1 to 4.5).  The
    frontend is embedded from [js/state.js], [js/main.js], [js/uiController.js]
    and [js/questions.js]. *)

From stdpp Require Import base gmap strings list.
From Stdlib Require Import QArith Qminmax Lqa ZArith Ascii.

(** ** Decision engine *)
Module Engine.

Local Open Scope Q_scope.

(** Strict comparison on [Q] as a boolean. *)
Definition Qlt_b (x y : Q) : bool := negb (Qle_bool y x).

Definition QN (n : N) : Q := inject_Z (Z.of_N n).

(** Modelled from the spec: [LaptopRecord] of the missing
    [decision_engine.py] (spec section 3); the cleaned catalog's columns. *)
Record LaptopRecord := mkLaptop {
  brand : string;
  model_name : string;
  processor_name : string;
  no_of_cores : N;
  no_of_threads : N;
  ram_GB : N;
  ssd_GB : N;
  hard_disk_GB : N;
  operating_system : string;
  graphics : string;
  screen_size_inches : Q;
  price : Q
}.

(** Modelled from the spec: the derived field [total_storage_gb] (ssd + hdd). *)
Definition total_storage_gb (r : LaptopRecord) : N := ssd_GB r + hard_disk_GB r.

(** Modelled from the spec: [HardConstraints] of the missing engine, after
    defaults are applied (os "any", min_ram 0, min_storage 0). *)
Record HardConstraints := mkHard {
  budget : Q;
  os : string;
  min_ram : Q;
  min_storage : Q
}.

(** Modelled from the spec: the Constraint Filter of the missing engine
    (spec 4.1).  A record is excluded when [price > budget], when
    [os <> "any"] and the OS differs, when [ram < min_ram] (min_ram > 0) and
    when [total_storage_gb < min_storage] (min_storage > 0). *)
Definition passes (hc : HardConstraints) (r : LaptopRecord) : bool :=
  negb (Qlt_b (budget hc) (price r))
  && (String.eqb (os hc) "any" || String.eqb (os hc) (operating_system r))
  && (if Qlt_b 0 (min_ram hc) then negb (Qlt_b (QN (ram_GB r)) (min_ram hc))
      else true)
  && (if Qlt_b 0 (min_storage hc)
      then negb (Qlt_b (QN (total_storage_gb r)) (min_storage hc))
      else true).

Definition filter_catalog (catalog : list LaptopRecord) (hc : HardConstraints)
  : list LaptopRecord :=
  List.filter (passes hc) catalog.

(** The scorable fields and their keys in [soft_preferences]. *)
Inductive Field := CpuPerformance | RamGB | TotalStorageGB | SsdGB | ScreenSize.

Definition field_key (f : Field) : string :=
  match f with
  | CpuPerformance => "cpu_performance"
  | RamGB => "ram(GB)"
  | TotalStorageGB => "total_storage_GB"
  | SsdGB => "ssd(GB)"
  | ScreenSize => "screen_size(inches)"
  end.

Definition scorable_fields : list Field :=
  [CpuPerformance; RamGB; TotalStorageGB; SsdGB; ScreenSize].

Definition Qlist_min (l : list Q) : Q :=
  match l with [] => 0 | x :: xs => fold_left Qmin xs x end.

Definition Qlist_max (l : list Q) : Q :=
  match l with [] => 0 | x :: xs => fold_left Qmax xs x end.

(** Soft preferences: the JSON object [soft_preferences] as a map. *)
Abbreviation SoftPreferences := (gmap string Q).

(** Modelled from the spec: the effective weight (spec 3 and 4.3); a field
    absent from the mapping gets the neutral weight 1. *)
Definition effective_weight (prefs : SoftPreferences) (f : Field) : Q :=
  default 1 (prefs !! field_key f).

Definition weight_total (prefs : SoftPreferences) : Q :=
  fold_right (fun f acc => effective_weight prefs f + acc) 0 scorable_fields.

Record ScoredResult := mkResult {
  rank : nat;
  score : Q;
  rank_label : string;
  result_record : LaptopRecord;
  strengths : list string;
  tradeoffs : list string
}.

Section Pipeline.

(** The spec leaves the combination of cores and threads open (an
    implementation choice, monotone in both); the pipeline is stated for any
    such function. *)
Variable cpu_performance : LaptopRecord -> Q.

Definition field_value (f : Field) (r : LaptopRecord) : Q :=
  match f with
  | CpuPerformance => cpu_performance r
  | RamGB => QN (ram_GB r)
  | TotalStorageGB => QN (total_storage_gb r)
  | SsdGB => QN (ssd_GB r)
  | ScreenSize => screen_size_inches r
  end.

(** Modelled from the spec: the Field Normalizer (spec 4.2): min-max
    scaling over the filtered subset, 0.5 when [max == min]. *)
Definition normalize (subset : list LaptopRecord) (f : Field)
    (r : LaptopRecord) : Q :=
  let vs := map (field_value f) subset in
  let mn := Qlist_min vs in
  let mx := Qlist_max vs in
  if Qeq_bool mx mn then 1 # 2 else (field_value f r - mn) / (mx - mn).

Definition weighted_sum (subset : list LaptopRecord) (prefs : SoftPreferences)
    (r : LaptopRecord) : Q :=
  fold_right (fun f acc => effective_weight prefs f * normalize subset f r + acc)
    0 scorable_fields.

(** Modelled from the spec: the Weighted Scorer (spec 4.3):
    [100 * (Σ weight_f * normalized_f) / (Σ weight_f)]. *)
Definition composite (subset : list LaptopRecord) (prefs : SoftPreferences)
    (r : LaptopRecord) : Q :=
  100 * weighted_sum subset prefs r / weight_total prefs.

(** Modelled from the spec: the Ranker's order (spec 4.4): score descending,
    then price ascending, then model name ascending. *)
Definition ranks_before (a b : LaptopRecord * Q) : bool :=
  Qlt_b (snd b) (snd a)
  || (Qeq_bool (snd a) (snd b)
      && (Qlt_b (price (fst a)) (price (fst b))
          || (Qeq_bool (price (fst a)) (price (fst b))
              && match String.compare (model_name (fst a)) (model_name (fst b))
                 with Lt => true | _ => false end))).

Fixpoint insert_ranked (x : LaptopRecord * Q) (l : list (LaptopRecord * Q))
  : list (LaptopRecord * Q) :=
  match l with
  | [] => [x]
  | y :: ys => if ranks_before x y then x :: y :: ys else y :: insert_ranked x ys
  end.

Definition sort_ranked (l : list (LaptopRecord * Q)) : list (LaptopRecord * Q) :=
  fold_right insert_ranked [] l.

(** Modelled from the spec: rank label (spec 4.4), "Great Value" at most 80%
    of the budget. *)
Definition label_of (hc : HardConstraints) (rk : nat) (r : LaptopRecord)
  : string :=
  if Nat.eqb rk 1 then "Best Match"
  else if Qle_bool (price r) ((4 # 5) * budget hc) then "Great Value"
  else "".

(** Modelled from the spec: the Explanation Generator's strengths and
    trade-offs (spec 4.5): fields of weight at least 2 in the top or bottom
    third of the range. *)
Definition strengths_of (subset : list LaptopRecord) (prefs : SoftPreferences)
    (r : LaptopRecord) : list string :=
  map field_key
    (List.filter (fun f => Qle_bool 2 (effective_weight prefs f)
                           && Qle_bool (2 # 3) (normalize subset f r))
       scorable_fields).

Definition tradeoffs_of (subset : list LaptopRecord) (prefs : SoftPreferences)
    (r : LaptopRecord) : list string :=
  map field_key
    (List.filter (fun f => Qle_bool 2 (effective_weight prefs f)
                           && Qle_bool (normalize subset f r) (1 # 3))
       scorable_fields).

Fixpoint build_results (hc : HardConstraints) (subset : list LaptopRecord)
    (prefs : SoftPreferences) (rk : nat) (l : list (LaptopRecord * Q))
  : list ScoredResult :=
  match l with
  | [] => []
  | (r, s) :: rest =>
      mkResult rk s (label_of hc rk r) r (strengths_of subset prefs r)
        (tradeoffs_of subset prefs r)
      :: build_results hc subset prefs (S rk) rest
  end.

(** Modelled from the spec: the whole pipeline (spec 2): filter, short-circuit
    on an empty subset, score, rank, explain. *)
Definition recommend (catalog : list LaptopRecord) (hc : HardConstraints)
    (prefs : SoftPreferences) : list ScoredResult :=
  let subset := filter_catalog catalog hc in
  match subset with
  | [] => []
  | _ =>
      let scored := map (fun r => (r, composite subset prefs r)) subset in
      build_results hc subset prefs 1 (sort_ranked scored)
  end.

End Pipeline.

(** A small concrete catalog, used to exercise the pipeline. *)
Definition demo_cpu (r : LaptopRecord) : Q := QN (no_of_cores r + no_of_threads r).

Definition demo_catalog : list LaptopRecord :=
  [ mkLaptop "Lenovo" "Lenovo V15 G2" "11th Gen Core i3" 2 4 8 512 0 "Windows"
      "Intel UHD" (156 # 10) 33921;
    mkLaptop "HP" "HP 15s" "Ryzen 5" 6 12 16 512 0 "Windows"
      "AMD Radeon" (156 # 10) 45990;
    mkLaptop "Asus" "Asus Vivobook" "Core i5" 4 8 8 256 1024 "DOS"
      "Intel Iris" 14 42990;
    mkLaptop "Dell" "Dell XPS 13" "Core i7" 8 16 16 1024 0 "Windows"
      "Intel Iris" (134 # 10) 99990 ].

Definition demo_hc : HardConstraints := mkHard 50000 "Windows" 8 256.

Definition demo_prefs : SoftPreferences := <["ram(GB)" := 3]> ∅.

Definition demo_dummy : ScoredResult :=
  mkResult 0 0 "" (mkLaptop "" "" "" 0 0 0 0 0 "" "" 0 0) [] [].

(** The weights the frontend can send. *)
Definition weights_in_range (prefs : SoftPreferences) : Prop :=
  forall k w, prefs !! k = Some w -> w == 1 \/ w == 2 \/ w == 3.

End Engine.

(** ** Questionnaire frontend *)
Module Ui.

#[local] Set Warnings "-register-all".

(** JavaScript values, as far as the frontend handles them. *)
Inductive JSValue :=
| JUndef
| JNull
| JBool (b : bool)
| JNum (x : Q)
| JNaN
| JStr (s : string)
| JArr (l : list JSValue)
| JObj (fields : list (string * JSValue)).

Definition nullish (v : JSValue) : bool :=
  match v with JUndef | JNull => true | _ => false end.

(** JavaScript truthiness ([!v] is [negb (truthy v)]). *)
Definition truthy (v : JSValue) : bool :=
  match v with
  | JUndef | JNull | JNaN => false
  | JBool b => b
  | JNum x => negb (Qeq_bool x 0)
  | JStr s => negb (String.eqb s "")
  | JArr _ | JObj _ => true
  end.

(** Property lookup on a parsed JSON object; with duplicate keys,
    [JSON.parse] keeps the last one. *)
Fixpoint get_field (fs : list (string * JSValue)) (k : string) : option JSValue :=
  match fs with
  | [] => None
  | (k', v) :: rest =>
      match get_field rest k with
      | Some w => Some w
      | None => if String.eqb k k' then Some v else None
      end
  end.

Definition get_prop (v : JSValue) (k : string) : JSValue :=
  match v with
  | JObj fs => default JUndef (get_field fs k)
  | _ => JUndef
  end.

(** Decimal printing of a natural number, as [String(n)] does. *)
Fixpoint N_to_dec_aux (fuel : nat) (n : N) (acc : string) : string :=
  match fuel with
  | O => acc
  | S f =>
      let acc' := String (Ascii.ascii_of_N (48 + N.modulo n 10)) acc in
      if N.ltb n 10 then acc' else N_to_dec_aux f (N.div n 10) acc'
  end.

Definition N_to_dec (n : N) : string :=
  N_to_dec_aux (S (N.to_nat (N.size n))) n "".

Definition Z_to_dec (z : Z) : string :=
  if Z.ltb z 0 then String.append "-" (N_to_dec (Z.to_N (- z))) else N_to_dec (Z.to_N z).

(** Decimal digits of a string, if it consists only of them. *)
Fixpoint parse_digits (s : string) (acc : N) : option N :=
  match s with
  | EmptyString => Some acc
  | String c rest =>
      let d := Ascii.N_of_ascii c in
      if andb (N.leb 48 d) (N.leb d 57)
      then parse_digits rest (acc * 10 + (d - 48))
      else None
  end.

(** [Number(v)].  For strings this covers the empty string (0) and plain
    decimal digit strings, the only strings that reach it (the values of the
    select options); any other string is mapped to NaN.  Arrays and objects
    never reach it ([readCurrentAnswer] returns none) and are mapped to NaN. *)
Definition js_Number (v : JSValue) : JSValue :=
  match v with
  | JUndef | JNaN => JNaN
  | JNull => JNum 0
  | JBool b => JNum (if b then 1 else 0)
  | JNum x => JNum x
  | JStr s =>
      match s with
      | EmptyString => JNum 0
      | _ => match parse_digits s 0 with
             | Some n => JNum (inject_Z (Z.of_N n))
             | None => JNaN
             end
      end
  | JArr _ | JObj _ => JNaN
  end.

(** *** js/questions.js *)

Inductive QType := Hard | Soft.
Inductive InputType := INumber | ISelect | IImportance.

(** The value of a select option: a string or an integer literal. *)
Inductive OptVal := OStr (s : string) | OInt (z : Z).

(** [String(o.value)], the [value] attribute written by [_buildSelect]. *)
Definition optval_string (o : OptVal) : string :=
  match o with OStr s => s | OInt z => Z_to_dec z end.

(** A question; labels, hints, placeholders, units and min/max only feed the
    rendering and are left out.  [q_field] is [undefined] (None) for hard
    questions; [q_required] is [false] where the source omits it. *)
Record Question := mkQuestion {
  q_id : string;
  q_type : QType;
  q_field : option string;
  q_inputType : InputType;
  q_options : list OptVal;
  q_required : bool
}.

Definition QUESTIONS : list Question :=
  [ mkQuestion "budget" Hard None INumber [] true;
    mkQuestion "os" Hard None ISelect
      [OStr "any"; OStr "Windows"; OStr "DOS"; OStr "Ubuntu"] false;
    mkQuestion "min_ram" Hard None ISelect [OInt 4; OInt 8; OInt 16; OInt 32] false;
    mkQuestion "min_storage" Hard None ISelect
      [OInt 0; OInt 128; OInt 256; OInt 512; OInt 1024] false;
    mkQuestion "weight_performance" Soft (Some "cpu_performance") IImportance [] false;
    mkQuestion "weight_ram" Soft (Some "ram(GB)") IImportance [] false;
    mkQuestion "weight_storage" Soft (Some "total_storage_GB") IImportance [] false;
    mkQuestion "weight_ssd" Soft (Some "ssd(GB)") IImportance [] false;
    mkQuestion "weight_display" Soft (Some "screen_size(inches)") IImportance [] false ].

(** [IMPORTANCE_MAP[answer]].  Keys inherited from [Object.prototype]
    (such as "toString") are not modelled: the radio values never name one. *)
Definition IMPORTANCE_MAP (answer : JSValue) : option JSValue :=
  match answer with
  | JStr "High" => Some (JNum 3)
  | JStr "Medium" => Some (JNum 2)
  | JStr "Low" => Some (JNum 1)
  | _ => None
  end.

(** [QUESTIONS[idx]]. *)
Definition question_at (idx : Z) : option Question :=
  if Z.ltb idx 0 then None else nth_error QUESTIONS (Z.to_nat idx).

(** The radio values written by [_buildImportance]. *)
Definition importance_levels : list string := ["High"; "Medium"; "Low"].

(** *** js/state.js, with the value semantics [main.js] relies on (it never
    mutates what a getter returns; aliasing is modelled in [StateHeap]). *)
Record AppState := mkApp {
  currentQuestionIndex : Z;
  hardConstraints : gmap string JSValue;
  weights : gmap string JSValue;
  skipped : list string;
  lastResults : JSValue
}.

Definition initial_app : AppState := mkApp 0 ∅ ∅ [] (JArr []).

Definition incrementIndex (a : AppState) : AppState :=
  mkApp (currentQuestionIndex a + 1) (hardConstraints a) (weights a) (skipped a)
    (lastResults a).

Definition decrementIndex (a : AppState) : AppState :=
  if Z.ltb 0 (currentQuestionIndex a)
  then mkApp (currentQuestionIndex a - 1) (hardConstraints a) (weights a)
         (skipped a) (lastResults a)
  else a.

Definition setHardConstraint (id : string) (v : JSValue) (a : AppState) : AppState :=
  mkApp (currentQuestionIndex a) (<[id := v]> (hardConstraints a)) (weights a)
    (skipped a) (lastResults a).

Definition setWeight (field : string) (w : JSValue) (a : AppState) : AppState :=
  mkApp (currentQuestionIndex a) (hardConstraints a) (<[field := w]> (weights a))
    (skipped a) (lastResults a).

Definition markSkipped (id : string) (a : AppState) : AppState :=
  if existsb (String.eqb id) (skipped a) then a
  else mkApp (currentQuestionIndex a) (hardConstraints a) (weights a)
         (skipped a ++ [id]) (lastResults a).

Definition unmarkSkipped (id : string) (a : AppState) : AppState :=
  mkApp (currentQuestionIndex a) (hardConstraints a) (weights a)
    (List.filter (fun x => negb (String.eqb x id)) (skipped a)) (lastResults a).

Definition setLastResults (v : JSValue) (a : AppState) : AppState :=
  mkApp (currentQuestionIndex a) (hardConstraints a) (weights a) (skipped a) v.

Definition resetState (a : AppState) : AppState := initial_app.

(** *** The page (index.html is not among the sources).  The buttons are
    taken to sit in the section they serve: Start on the landing section;
    Continue, Back and Skip in the questionnaire section; Restart and Export
    in the results section.  A button hidden by [renderQuestion] cannot be
    clicked. *)
Inductive Screen := SLanding | SQuestionnaire | SResults.

(** Content of [#question-container]: nothing yet, the widget of question
    [idx], or the fatal-error box of [showFatalError]. *)
Inductive Container := CEmpty | CQuestion (idx : Z) | CFatal.

(** Content of [#results-list]. *)
Inductive ListView := LEmpty | LLoading | LNoResults | LCards (n : nat).

Record Dom := mkDom {
  screen : Screen;
  container : Container;
  inline_error : bool;
  back_visible : bool;
  skip_visible : bool;
  results_list : ListView
}.

(** The whole frontend: the state module, the page, and the number of
    [_submit] calls still awaiting their response. *)
Record UIState := mkUI { app : AppState; dom : Dom; pending : nat }.

Definition initial_ui : UIState :=
  mkUI initial_app (mkDom SLanding CEmpty false true true LEmpty) 0.

Definition with_app (a : AppState) (st : UIState) : UIState :=
  mkUI a (dom st) (pending st).

Definition with_dom (d : Dom) (st : UIState) : UIState :=
  mkUI (app st) d (pending st).

(** The request body built by [_submit]. *)
Record Payload := mkPayload {
  hard_constraints : gmap string JSValue;
  soft_preferences : gmap string JSValue
}.

(** A [fetch] outcome: [resp_ok], and the body parsed by [response.json()]
    (None when it is not JSON). *)
Record Response := mkResponse { resp_ok : bool; resp_body : option JSValue }.

(** What the user has put into the widget when clicking Continue: nothing,
    a typed number (what [parseFloat] reads from a valid numeric input), the
    [k]-th option of a select, or the [k]-th radio button. *)
Inductive WidgetInput := WBlank | WNumber (x : Q) | WOption (k : nat) | WLevel (k : nat).

Inductive Event :=
| EStart | EContinue (w : WidgetInput) | EBack | ESkip | ERestart | EExport
| EResponse (r : Response).

(** *** js/uiController.js *)

Definition showLanding (d : Dom) : Dom :=
  mkDom SLanding (container d) (inline_error d) (back_visible d) (skip_visible d)
    (results_list d).

Definition showQuestionnaire (d : Dom) : Dom :=
  mkDom SQuestionnaire (container d) (inline_error d) (back_visible d)
    (skip_visible d) (results_list d).

Definition showResults (d : Dom) : Dom :=
  mkDom SResults (container d) (inline_error d) (back_visible d) (skip_visible d)
    (results_list d).

Definition showLoadingResults (d : Dom) : Dom :=
  mkDom (screen d) (container d) (inline_error d) (back_visible d) (skip_visible d)
    LLoading.

(** [renderQuestion(index, saved)] for an existing question: the container
    is emptied and refilled, Back is hidden on the first question and Skip
    on required ones. *)
Definition renderQuestion (index : Z) (q : Question) (d : Dom) : Dom :=
  mkDom (screen d) (CQuestion index) false (negb (Z.eqb index 0))
    (negb (q_required q)) (results_list d).

Definition showQuestionError (d : Dom) : Dom :=
  mkDom (screen d) (container d) true (back_visible d) (skip_visible d)
    (results_list d).

Definition clearQuestionError (d : Dom) : Dom :=
  mkDom (screen d) (container d) false (back_visible d) (skip_visible d)
    (results_list d).

Definition showFatalError (d : Dom) : Dom :=
  mkDom (screen d) CFatal false (back_visible d) (skip_visible d) (results_list d).

(** [readCurrentAnswer(index)]: the widget's elements exist only while the
    container shows question [index]. *)
Definition readCurrentAnswer (d : Dom) (index : Z) (w : WidgetInput) : JSValue :=
  match question_at index with
  | None => JNull
  | Some q =>
      if negb (match container d with CQuestion j => Z.eqb j index | _ => false end)
      then JNull
      else
        match q_inputType q, w with
        | INumber, WNumber x => JNum x
        | ISelect, WOption k =>
            match nth_error (q_options q) k with
            | Some o => JStr (optval_string o)
            | None => JNull
            end
        | IImportance, WLevel k =>
            match nth_error importance_levels k with
            | Some l => JStr l
            | None => JNull
            end
        | _, _ => JNull
        end
  end.

(** [js_length(v)], [v.length] for the values [renderResults] can receive. *)
Definition js_length (v : JSValue) : JSValue :=
  match v with
  | JArr l => JNum (inject_Z (Z.of_nat (length l)))
  | JStr s => JNum (inject_Z (Z.of_nat (String.length s)))
  | JObj _ => get_prop v "length"
  | _ => JUndef
  end.

Definition strict_eq_zero (v : JSValue) : bool :=
  match v with JNum x => Qeq_bool x 0 | _ => false end.

(** Whether converting a parsed value to a primitive throws ([String(v)],
    a template literal, [Number(v)], [Math.round(v)]).  For an object both
    hints try its [toString] and [valueOf]: an own key toString holds a
    value that is not callable, and the inherited [valueOf] returns the
    object itself, so the conversion throws exactly when the object has an
    own key toString.  An array is converted by [join], which converts its
    elements that are not null or undefined. *)
Fixpoint to_primitive_throws (v : JSValue) : bool :=
  match v with
  | JObj fs => match get_field fs "toString" with Some _ => true | None => false end
  | JArr l =>
      (fix elems (l : list JSValue) : bool :=
         match l with
         | [] => false
         | x :: xs => to_primitive_throws x || elems xs
         end) l
  | _ => false
  end.

(** [(v || []).map(s => _esc(s))]: a truthy value other than an array has
    no callable [map] and throws; [_esc] converts each element that is not
    null or undefined with [String]. *)
Definition map_esc_throws (v : JSValue) : bool :=
  if truthy v then
    match v with
    | JArr l => existsb (fun s => negb (nullish s) && to_primitive_throws s) l
    | _ => true
    end
  else false.

(** Whether [_buildCard(r, rank)] throws, following its statements: reading
    [r.score] of null or undefined, [Math.round(r.score)] (the later
    [scoreRaw > 0] converts the same value), the two [map] calls, then the
    conversions in the aria label and the card's template. *)
Definition card_throws (r : JSValue) : bool :=
  nullish r
  || to_primitive_throws (get_prop r "score")
  || map_esc_throws (get_prop r "strengths")
  || map_esc_throws (get_prop r "tradeoffs")
  || to_primitive_throws (get_prop r "brand")
  || to_primitive_throws (get_prop r "model")
  || (truthy (get_prop r "rank_label") && to_primitive_throws (get_prop r "rank_label"))
  || to_primitive_throws (get_prop r "model")
  || (negb (nullish (get_prop r "price")) && to_primitive_throws (get_prop r "price"))
  || (truthy (get_prop r "os") && to_primitive_throws (get_prop r "os"))
  || to_primitive_throws (get_prop r "ram_gb")
  || to_primitive_throws (get_prop r "total_storage_gb")
  || (truthy (get_prop r "processor") && to_primitive_throws (get_prop r "processor"))
  || (truthy (get_prop r "explanation") && to_primitive_throws (get_prop r "explanation")).

(** [results.forEach(... _buildCard ...)]: a card is appended per element,
    until [_buildCard] throws. *)
Fixpoint build_cards (l : list JSValue) (n : nat) : ListView * bool :=
  match l with
  | [] => (LCards n, false)
  | x :: xs => if card_throws x then (LCards n, true) else build_cards xs (S n)
  end.

(** [renderResults(results)]: the new content of the list and whether it
    threw.  A value other than an array reaching [forEach] throws. *)
Definition renderResults (results : JSValue) : ListView * bool :=
  if negb (truthy results) || strict_eq_zero (js_length results)
  then (LNoResults, false)
  else match results with
       | JArr l => build_cards l 0
       | _ => (LEmpty, true)
       end.

Definition set_results_list (lv : ListView) (d : Dom) : Dom :=
  mkDom (screen d) (container d) (inline_error d) (back_visible d) (skip_visible d)
    lv.

(** *** js/main.js *)

Definition is_number (v : JSValue) : bool :=
  match v with JNum _ | JNaN => true | _ => false end.

(** [answer <= 0] for a number ([NaN <= 0] is false). *)
Definition le_zero (v : JSValue) : bool :=
  match v with JNum x => Qle_bool x 0 | _ => false end.

Definition is_empty_string (v : JSValue) : bool :=
  match v with JStr s => String.eqb s "" | _ => false end.

Definition numericHardFields : list string := ["min_ram"; "min_storage"].

Definition _renderCurrent (st : UIState) : UIState :=
  let idx := currentQuestionIndex (app st) in
  match question_at idx with
  | None => st
  | Some q => with_dom (renderQuestion idx q (dom st)) st
  end.

Definition _saveAnswer (q : Question) (answer : JSValue) (a : AppState) : AppState :=
  if nullish answer then a
  else
    match q_type q with
    | Hard =>
        let val :=
          if (match q_inputType q with INumber => true | _ => false end)
             || existsb (String.eqb (q_id q)) numericHardFields
          then js_Number answer else answer in
        setHardConstraint (q_id q) val a
    | Soft =>
        match IMPORTANCE_MAP answer with
        | Some w => setWeight (default "undefined" (q_field q)) w a
        | None => a
        end
    end.

(** The synchronous part of [_submit]: the payload is built from the
    getters, the results page is shown with its loading message, and the
    request goes out. *)
Definition _submit (st : UIState) : UIState * option Payload :=
  let payload := mkPayload (hardConstraints (app st)) (weights (app st)) in
  (mkUI (app st) (showLoadingResults (showResults (dom st))) (S (pending st)),
   Some payload).

(** The continuation of [_submit] once [fetch] settles; a throw anywhere in
    the [try] block lands in the [catch], which shows the fatal error. *)
Definition on_response (r : Response) (st0 : UIState) : UIState :=
  let st := mkUI (app st0) (dom st0) (Nat.pred (pending st0)) in
  let fatal (s : UIState) := with_dom (showFatalError (showQuestionnaire (dom s))) s in
  if negb (resp_ok r) then fatal st
  else
    match resp_body r with
    | None => fatal st
    | Some body =>
        if nullish body then fatal st
        else
          let results := get_prop body "results" in
          let shown := if truthy results then results else JArr [] in
          let st1 := with_app (setLastResults shown (app st)) st in
          let (lv, threw) := renderResults shown in
          let st2 := with_dom (set_results_list lv (dom st1)) st1 in
          if threw then fatal st2 else st2
    end.

Definition last_index : Z := Z.of_nat (length QUESTIONS) - 1.

Definition _onStart (st : UIState) : UIState :=
  _renderCurrent (with_dom (showQuestionnaire (dom st)) st).

Definition _onContinue (w : WidgetInput) (st0 : UIState) : UIState * option Payload :=
  let st := with_dom (clearQuestionError (dom st0)) st0 in
  let idx := currentQuestionIndex (app st) in
  match question_at idx with
  | None => (st, None)
  | Some q =>
      let answer := readCurrentAnswer (dom st) idx w in
      if nullish answer || is_empty_string answer
      then (with_dom (showQuestionError (dom st)) st, None)
      else if String.eqb (q_id q) "budget"
              && (negb (is_number answer) || le_zero answer)
      then (with_dom (showQuestionError (dom st)) st, None)
      else
        let st1 := with_app (unmarkSkipped (q_id q) (_saveAnswer q answer (app st))) st in
        if Z.leb last_index idx then _submit st1
        else (_renderCurrent (with_app (incrementIndex (app st1)) st1), None)
  end.

Definition _onBack (st0 : UIState) : UIState :=
  let st := with_dom (clearQuestionError (dom st0)) st0 in
  _renderCurrent (with_app (decrementIndex (app st)) st).

Definition _onSkip (st0 : UIState) : UIState * option Payload :=
  let st := with_dom (clearQuestionError (dom st0)) st0 in
  let idx := currentQuestionIndex (app st) in
  match question_at idx with
  | None => (st, None)
  | Some q =>
      let st1 := with_app (markSkipped (q_id q) (app st)) st in
      if Z.leb last_index idx then _submit st1
      else (_renderCurrent (with_app (incrementIndex (app st1)) st1), None)
  end.

Definition _onRestart (st : UIState) : UIState :=
  with_dom (showLanding (dom st)) (with_app (resetState (app st)) st).

(** Whether the event can happen: the button is on the visible section and
    not hidden, or a request is awaiting its response. *)
Definition enabled (st : UIState) (e : Event) : bool :=
  match e, screen (dom st) with
  | EStart, SLanding => true
  | EContinue _, SQuestionnaire => true
  | EBack, SQuestionnaire => back_visible (dom st)
  | ESkip, SQuestionnaire => skip_visible (dom st)
  | (ERestart | EExport), SResults => true
  | EResponse _, _ => Nat.ltb 0 (pending st)
  | _, _ => false
  end.

(** One event; [_onExport] only reads the state and downloads a file. *)
Definition step (st : UIState) (e : Event) : UIState * option Payload :=
  if negb (enabled st e) then (st, None)
  else
    match e with
    | EStart => (_onStart st, None)
    | EContinue w => _onContinue w st
    | EBack => (_onBack st, None)
    | ESkip => _onSkip st
    | ERestart => (_onRestart st, None)
    | EExport => (st, None)
    | EResponse r => (on_response r st, None)
    end.

(** A run: the final state and the payloads submitted, in order. *)
Fixpoint run (st : UIState) (evs : list Event) : UIState * list Payload :=
  match evs with
  | [] => (st, [])
  | e :: es =>
      let (st1, out) := step st e in
      let (st2, ps) := run st1 es in
      (st2, option_list out ++ ps)
  end.

(** *** [_esc] in js/uiController.js *)

(** [s.replace(/c/g, rep)] for a one-character pattern. *)
Fixpoint replace_all (c : Ascii.ascii) (rep : string) (s : string) : string :=
  match s with
  | EmptyString => EmptyString
  | String x rest =>
      if Ascii.ascii_dec x c then String.append rep (replace_all c rep rest)
      else String x (replace_all c rep rest)
  end.

Definition dquote : Ascii.ascii := Ascii.ascii_of_nat 34.
Definition squote : Ascii.ascii := Ascii.ascii_of_nat 39.

Section Esc.
  (** [String(str)] for a value that is neither null nor undefined; the
      escaping does not depend on how the value is printed. *)
  Variable js_String : JSValue -> string.

Definition _esc (str : JSValue) : string :=
  if nullish str then ""
  else replace_all squote "&#39;"
         (replace_all dquote "&quot;"
            (replace_all ">"%char "&gt;"
               (replace_all "<"%char "&lt;"
                    (replace_all "&"%char "&amp;" (js_String str))))).
End Esc.

(** Whether character [c] occurs in [s]. *)
Fixpoint has_char (c : Ascii.ascii) (s : string) : bool :=
  match s with
  | EmptyString => false
  | String x rest => if Ascii.ascii_dec x c then true else has_char c rest
  end.

(** *** Re-rendering a saved answer *)

(** [Object.keys(IMPORTANCE_MAP)], in insertion order. *)
Definition IMPORTANCE_KEYS : list string := ["High"; "Medium"; "Low"].

(** [IMPORTANCE_MAP[k] === w] for a key [k] of the map. *)
Definition importance_matches (w : JSValue) (k : string) : bool :=
  match IMPORTANCE_MAP (JStr k), w with
  | Some (JNum n), JNum x => Qeq_bool n x
  | _, _ => false
  end.

(** [_savedAnswer(q)] in main.js: the stored hard constraint, or the
    importance level whose weight is stored for the soft question's field. *)
Definition _savedAnswer (q : Question) (a : AppState) : JSValue :=
  match q_type q with
  | Hard => default JUndef (hardConstraints a !! q_id q)
  | Soft =>
      match default JUndef (weights a !! default "undefined" (q_field q)) with
      | JUndef => JUndef
      | w => match find (importance_matches w) IMPORTANCE_KEYS with
             | Some k => JStr k
             | None => JUndef
             end
      end
  end.

(** [saved === level] for each radio button written by [_buildImportance]:
    whether it is rendered [checked]. *)
Definition importance_checked (saved : JSValue) : list bool :=
  map (fun level => match saved with JStr s => String.eqb s level | _ => false end)
    importance_levels.

Section SelectRender.
  (** [String(v)] of a JavaScript value. *)
  Variable js_String : JSValue -> string.

(** For each option written by [_buildSelect(q, saved)], whether it is
    rendered [selected]: [hassaved && String(saved) === String(o.value)]. *)
Definition select_selected (q : Question) (saved : JSValue) : list bool :=
  let hassaved := negb (nullish saved) in
  map (fun o => hassaved && String.eqb (js_String saved) (optval_string o)) (q_options q).
End SelectRender.

(** [String(v)] as JavaScript computes it on strings and on integer
    numbers; other values, which never reach a select, print as "". *)
Definition js_String_on_ints (v : JSValue) : string :=
  match v with
  | JStr s => s
  | JNum x => let y := Qred x in if Pos.eqb (Qden y) 1 then Z_to_dec (Qnum y) else ""
  | _ => ""
  end.

(** *** Concrete runs *)

(** A run that submits, restarts while the request is in flight, and then
    sees that request fail: the fatal error shows the questionnaire at
    question 0 with the Skip button left visible by the last render. *)
Definition stale_failure_run : list Event :=
  [EStart; EContinue (WNumber 50000);
   ESkip; ESkip; ESkip; ESkip; ESkip; ESkip; ESkip; ESkip;
   ERestart; EResponse (mkResponse false None);
   ESkip; ESkip; ESkip; ESkip; ESkip; ESkip; ESkip; ESkip; ESkip].

(** A run that answers the performance question "High", goes back to it and
    skips it. *)
Definition answered_then_skipped_run : list Event :=
  [EStart; EContinue (WNumber 50000); EContinue (WOption 1);
   EContinue (WOption 1); EContinue (WOption 2); EContinue (WLevel 0);
   EBack; ESkip; ESkip; ESkip; ESkip; ESkip].

(** A results array whose second record has a [strengths] field that is
    not an array. *)
Definition sample_results : list JSValue :=
  [JObj [("model", JStr "IdeaPad Slim 3"); ("score", JNum 71);
         ("strengths", JArr [JStr "Good battery"])];
   JObj [("model", JStr "Aspire 7"); ("strengths", JNum 5)]].

(** Like [ram_skipped_run], but on the RAM question Continue is first
    clicked with nothing selected, which is rejected, and then Skip. *)
Definition ram_blank_then_skipped_run : list Event :=
  [EStart; EContinue (WNumber 60000); EContinue (WOption 0);
   EContinue (WOption 1); EContinue (WOption 3); EContinue (WLevel 1);
   EContinue WBlank; ESkip; EContinue (WLevel 0); EContinue (WLevel 2);
   EContinue (WLevel 1)].

(** A run that answers everything but the RAM question, which it skips. *)
Definition ram_skipped_run : list Event :=
  [EStart; EContinue (WNumber 60000); EContinue (WOption 0);
   EContinue (WOption 1); EContinue (WOption 3); EContinue (WLevel 1);
   ESkip; EContinue (WLevel 0); EContinue (WLevel 2); EContinue (WLevel 1)].

(** Whether the event is a Continue click on the soft question whose
    [_saveAnswer] writes key [f], with an answer that passes the checks of
    [_onContinue] (not null, not the empty string), so that it is saved.
    A click with nothing selected only shows the inline error. *)
Definition answers_field (f : string) (st : UIState) (e : Event) : bool :=
  match e with
  | EContinue w =>
      enabled st e
      && match question_at (currentQuestionIndex (app st)) with
         | Some q =>
             match q_type q with
             | Soft =>
                 let answer := readCurrentAnswer (clearQuestionError (dom st))
                                 (currentQuestionIndex (app st)) w in
                 String.eqb (default "undefined" (q_field q)) f
                 && negb (nullish answer || is_empty_string answer)
             | Hard => false
             end
         | None => false
         end
  | _ => false
  end.

(** No event of the run answers the question writing key [f]. *)
Fixpoint never_answered (f : string) (st : UIState) (evs : list Event) : Prop :=
  match evs with
  | [] => True
  | e :: es => answers_field f st e = false /\ never_answered f (fst (step st e)) es
  end.

(** A weight the frontend can hold. *)
Definition weight_ok (k : string) (v : JSValue) : Prop :=
  v = JNum 1 \/ v = JNum 2 \/ v = JNum 3.

(** A hard-constraint value of the request contract, by key. *)
Definition hc_value_ok (k : string) (v : JSValue) : Prop :=
  ((k = "budget" \/ k = "min_ram" \/ k = "min_storage") -> exists x, v = JNum x)
  /\ (k = "os" -> v = JStr "any" \/ v = JStr "Windows" \/ v = JStr "DOS"
                  \/ v = JStr "Ubuntu").

End Ui.

(** ** js/state.js with its object identities *)
Module StateHeap.

(** A JavaScript value; objects and arrays live in the heap. *)
Inductive Val :=
| VUndef | VNull | VBool (b : bool) | VNum (x : Q) | VNaN | VStr (s : string)
| VRef (l : positive).

Inductive HObj :=
| HRec (props : gmap string Val)
| HArr (elems : list Val).

(** The fields of the module-private [_state] object.  [_state] itself
    never escapes the module, so its fields are kept directly. *)
Record ModState := mkMod {
  currentQuestionIndex : Z;
  hardConstraints : positive;
  weights : positive;
  skipped : positive;
  lastResults : Val;
  heap : gmap positive HObj;
  next_loc : positive
}.

Definition alloc (o : HObj) (m : ModState) : ModState * positive :=
  (mkMod (currentQuestionIndex m) (hardConstraints m) (weights m) (skipped m)
     (lastResults m) (<[next_loc m := o]> (heap m)) (Pos.succ (next_loc m)),
   next_loc m).

Definition write_obj (l : positive) (o : HObj) (m : ModState) : ModState :=
  mkMod (currentQuestionIndex m) (hardConstraints m) (weights m) (skipped m)
    (lastResults m) (<[l := o]> (heap m)) (next_loc m).

(** The object literal assigned to [_state], at load time and by
    [resetState]: four fresh objects. *)
Definition fresh_state (h : gmap positive HObj) (n : positive) : ModState :=
  let m0 := mkMod 0 1 1 1 VUndef h n in
  let (m1, l1) := alloc (HRec ∅) m0 in
  let (m2, l2) := alloc (HRec ∅) m1 in
  let (m3, l3) := alloc (HArr []) m2 in
  let (m4, l4) := alloc (HArr []) m3 in
  mkMod 0 l1 l2 l3 (VRef l4) (heap m4) (next_loc m4).

Definition initial_mod : ModState := fresh_state ∅ 1.

(** [SameValueZero], used by [includes]: [NaN] equals itself ([-0] is not
    a value of this model; it would equal [0] here as under [===]). *)
Definition same_value_zero (a b : Val) : bool :=
  match a, b with
  | VUndef, VUndef | VNull, VNull | VNaN, VNaN => true
  | VBool x, VBool y => Bool.eqb x y
  | VNum x, VNum y => Qeq_bool x y
  | VStr s, VStr t => String.eqb s t
  | VRef l, VRef l' => Pos.eqb l l'
  | _, _ => false
  end.

(** The length of the UTF-8 sequence a byte starts (a stray continuation
    byte counts as one). *)
Definition utf8_len (c : Ascii.ascii) : nat :=
  let n := Ascii.N_of_ascii c in
  if N.ltb n 192 then 1 else if N.ltb n 224 then 2 else if N.ltb n 240 then 3 else 4.

(** The bytes of a string cut into its UTF-8 sequences, one per code point. *)
Fixpoint utf8_chunks (fuel : nat) (cs : list Ascii.ascii) : list (list Ascii.ascii) :=
  match fuel, cs with
  | S f, c :: _ => firstn (utf8_len c) cs :: utf8_chunks f (skipn (utf8_len c) cs)
  | _, _ => []
  end.

(** [[...s]] on a string, held as its UTF-8 bytes: one one-character string
    per code point. *)
Definition spread_string (s : string) : list Val :=
  let cs := String.list_ascii_of_string s in
  map (fun ch => VStr (String.string_of_list_ascii ch)) (utf8_chunks (length cs) cs).

(** [[...v]]: arrays are copied element by element, strings split into
    code points; anything else is not iterable and throws (None). *)
Definition spread_array (m : ModState) (v : Val) : option (list Val) :=
  match v with
  | VRef l =>
      match heap m !! l with
      | Some (HArr xs) => Some xs
      | _ => None
      end
  | VStr s => Some (spread_string s)
  | _ => None
  end.

(** [===]: as [SameValueZero], except that [NaN] differs from itself. *)
Definition strict_eq (a b : Val) : bool :=
  match a, b with
  | VNaN, VNaN => false
  | _, _ => same_value_zero a b
  end.

Inductive Getter := GHardConstraints | GWeights | GSkipped | GLastResults.

(** [getHardConstraints], [getWeights], [getSkipped], [getLastResults]: a
    new object or array with the same own properties or elements. *)
Definition get (g : Getter) (m : ModState) : option (ModState * Val) :=
  let copy_rec l :=
    match heap m !! l with
    | Some (HRec p) => Some (let (m', l') := alloc (HRec p) m in (m', VRef l'))
    | _ => None
    end in
  match g with
  | GHardConstraints => copy_rec (hardConstraints m)
  | GWeights => copy_rec (weights m)
  | GSkipped =>
      match spread_array m (VRef (skipped m)) with
      | Some xs => Some (let (m', l') := alloc (HArr xs) m in (m', VRef l'))
      | None => None
      end
  | GLastResults =>
      match spread_array m (lastResults m) with
      | Some xs => Some (let (m', l') := alloc (HArr xs) m in (m', VRef l'))
      | None => None
      end
  end.

Definition set_index (i : Z) (m : ModState) : ModState :=
  mkMod i (hardConstraints m) (weights m) (skipped m) (lastResults m) (heap m)
    (next_loc m).

Definition incrementIndex (m : ModState) : ModState :=
  set_index (currentQuestionIndex m + 1) m.

Definition decrementIndex (m : ModState) : ModState :=
  if Z.ltb 0 (currentQuestionIndex m) then set_index (currentQuestionIndex m - 1) m
  else m.

(** [obj[key] = v] on a plain object.  For the key __proto__ the
    assignment runs the setter inherited from [Object.prototype], which at
    most replaces the prototype and creates no own property; only own
    properties are kept here, the spread of the getters copying nothing
    else. *)
Definition set_prop (l : positive) (key : string) (v : Val) (m : ModState)
  : option ModState :=
  match heap m !! l with
  | Some (HRec p) =>
      if String.eqb key "__proto__" then Some m
      else Some (write_obj l (HRec (<[key := v]> p)) m)
  | _ => None
  end.

Definition setHardConstraint (id : string) (v : Val) (m : ModState) : option ModState :=
  set_prop (hardConstraints m) id v m.

Definition setWeight (field : string) (w : Val) (m : ModState) : option ModState :=
  set_prop (weights m) field w m.

Definition markSkipped (id : Val) (m : ModState) : option ModState :=
  match heap m !! skipped m with
  | Some (HArr xs) =>
      if existsb (same_value_zero id) xs then Some m
      else Some (write_obj (skipped m) (HArr (xs ++ [id])) m)
  | _ => None
  end.

Definition unmarkSkipped (id : Val) (m : ModState) : option ModState :=
  match heap m !! skipped m with
  | Some (HArr xs) =>
      let (m', l') := alloc (HArr (List.filter (fun x => negb (strict_eq x id)) xs)) m in
      Some (mkMod (currentQuestionIndex m') (hardConstraints m') (weights m') l'
              (lastResults m') (heap m') (next_loc m'))
  | _ => None
  end.

(** [setLastResults] stores the caller's value itself, not a copy. *)
Definition setLastResults (v : Val) (m : ModState) : ModState :=
  mkMod (currentQuestionIndex m) (hardConstraints m) (weights m) (skipped m) v
    (heap m) (next_loc m).

Definition resetState (m : ModState) : ModState := fresh_state (heap m) (next_loc m).

(** What can happen to the module: a call of an exported function, or code
    outside the module creating an object or overwriting the contents of an
    object it holds.  Outside code only names objects that exist. *)
Inductive Op :=
| OGet (g : Getter)
| OGetCurrentIndex
| OIncrementIndex
| ODecrementIndex
| OSetHardConstraint (id : string) (v : Val)
| OSetWeight (field : string) (w : Val)
| OMarkSkipped (id : Val)
| OUnmarkSkipped (id : Val)
| OSetLastResults (v : Val)
| OResetState
| OAlloc (o : HObj)
| OWrite (l : positive) (o : HObj).

Definition exists_ref (m : ModState) (v : Val) : bool :=
  match v with VRef l => bool_decide (is_Some (heap m !! l)) | _ => true end.

(** One operation: the new module state and the value returned, or None
    when it throws (or names an object that does not exist). *)
Definition exec (m : ModState) (op : Op) : option (ModState * Val) :=
  match op with
  | OGet g => get g m
  | OGetCurrentIndex => Some (m, VNum (inject_Z (currentQuestionIndex m)))
  | OIncrementIndex => Some (incrementIndex m, VUndef)
  | ODecrementIndex => Some (decrementIndex m, VUndef)
  | OSetHardConstraint id v =>
      if exists_ref m v then option_map (fun m' => (m', VUndef)) (setHardConstraint id v m)
      else None
  | OSetWeight f w =>
      if exists_ref m w then option_map (fun m' => (m', VUndef)) (setWeight f w m)
      else None
  | OMarkSkipped id =>
      if exists_ref m id then option_map (fun m' => (m', VUndef)) (markSkipped id m)
      else None
  | OUnmarkSkipped id =>
      if exists_ref m id then option_map (fun m' => (m', VUndef)) (unmarkSkipped id m)
      else None
  | OSetLastResults v =>
      if exists_ref m v then Some (setLastResults v m, VUndef) else None
  | OResetState => Some (resetState m, VUndef)
  | OAlloc o => Some (let (m', l) := alloc o m in (m', VRef l))
  | OWrite l o =>
      if bool_decide (is_Some (heap m !! l)) then Some (write_obj l o m, VUndef)
      else None
  end.

(** A sequence of operations; one that throws leaves the state as it was. *)
Definition run_ops (m : ModState) (ops : list Op) : ModState :=
  fold_left (fun m op => match exec m op with Some (m', _) => m' | None => m end)
    ops m.

(** What the module's state holds: the index and the contents of the
    objects its fields point to. *)
Definition view (m : ModState)
  : Z * option HObj * option HObj * option HObj * (option HObj + Val) :=
  (currentQuestionIndex m, heap m !! hardConstraints m, heap m !! weights m,
   heap m !! skipped m,
   match lastResults m with VRef l => inl (heap m !! l) | v => inr v end).

(** Well-formedness of a reachable module state: every object lies below
    the allocation pointer, and the objects the state points to exist. *)
Definition wf (m : ModState) : Prop :=
  (forall l o, heap m !! l = Some o -> (l < next_loc m)%positive)
  /\ is_Some (heap m !! hardConstraints m)
  /\ is_Some (heap m !! weights m)
  /\ is_Some (heap m !! skipped m)
  /\ (forall l, lastResults m = VRef l -> is_Some (heap m !! l)).

(** The object of the state a getter copies. *)
Definition getter_root (g : Getter) (m : ModState) : option positive :=
  match g with
  | GHardConstraints => Some (hardConstraints m)
  | GWeights => Some (weights m)
  | GSkipped => Some (skipped m)
  | GLastResults => match lastResults m with VRef l => Some l | _ => None end
  end.

End StateHeap.

(** ** Proofs about the decision engine *)
Module EngineFacts.
Import Engine.
Local Open Scope Q_scope.

Lemma Qlt_b_spec (x y : Q) : Qlt_b x y = true <-> x < y.
Proof.
  unfold Qlt_b. rewrite negb_true_iff. split; intros H.
  - apply Qnot_le_lt. intros Hle. apply Qle_bool_iff in Hle. congruence.
  - destruct (Qle_bool y x) eqn:E; [|reflexivity].
    apply Qle_bool_iff in E. exfalso. apply (Qlt_not_le _ _ H E).
Qed.

Lemma Qlt_b_false (x y : Q) : Qlt_b x y = false <-> y <= x.
Proof.
  unfold Qlt_b. rewrite negb_false_iff. apply Qle_bool_iff.
Qed.

Lemma QN_nonneg (n : N) : 0 <= QN n.
Proof.
  unfold QN. change 0 with (inject_Z 0). rewrite <- Zle_Qle. lia.
Qed.

(** A record kept by the filter satisfies every hard constraint. *)
Lemma passes_sound (hc : HardConstraints) (r : LaptopRecord) :
  passes hc r = true ->
  price r <= budget hc /\ min_ram hc <= QN (ram_GB r)
  /\ min_storage hc <= QN (total_storage_gb r)
  /\ (os hc = "any" \/ os hc = operating_system r).
Proof.
  unfold passes. intros H.
  apply andb_prop in H as [H H4]. apply andb_prop in H as [H H3].
  apply andb_prop in H as [H1 H2].
  apply negb_true_iff, Qlt_b_false in H1.
  repeat split; [exact H1| | |].
  - destruct (Qlt_b 0 (min_ram hc)) eqn:E.
    + apply negb_true_iff, Qlt_b_false in H3. exact H3.
    + apply Qlt_b_false in E. pose proof (QN_nonneg (ram_GB r)). lra.
  - destruct (Qlt_b 0 (min_storage hc)) eqn:E.
    + apply negb_true_iff, Qlt_b_false in H4. exact H4.
    + apply Qlt_b_false in E. pose proof (QN_nonneg (total_storage_gb r)). lra.
  - apply orb_prop in H2 as [H2|H2]; apply String.eqb_eq in H2; auto.
Qed.

Lemma In_insert_ranked x l y :
  In y (insert_ranked x l) -> y = x \/ In y l.
Proof.
  induction l as [|z zs IH]; simpl.
  - intros [H|[]]. auto.
  - destruct (ranks_before x z); simpl.
    + intros [H|[H|H]]; auto.
    + intros [H|H]; auto. destruct (IH H); auto.
Qed.

Lemma In_sort_ranked l y : In y (sort_ranked l) -> In y l.
Proof.
  induction l as [|x xs IH]; simpl; [auto|].
  intros H. apply In_insert_ranked in H as [H|H]; auto.
Qed.

Lemma In_build_results cpu hc subset prefs rk l res :
  In res (build_results cpu hc subset prefs rk l) ->
  exists s, In (result_record res, s) l.
Proof.
  revert rk. induction l as [|[r s] rest IH]; simpl; intros rk H; [done|].
  destruct H as [<-|H].
  - exists s. simpl. auto.
  - destruct (IH _ H) as [s' Hs']. eauto.
Qed.

Lemma recommend_from_filter cpu catalog hc prefs res :
  In res (recommend cpu catalog hc prefs) ->
  In (result_record res) (filter_catalog catalog hc).
Proof.
  intros H. unfold recommend in H.
  remember (filter_catalog catalog hc) as sub eqn:E.
  destruct sub as [|r0 rs]; [done|].
  apply In_build_results in H as [s Hs].
  apply In_sort_ranked, in_map_iff in Hs as [r [Hr Hin]].
  injection Hr as <- _. exact Hin.
Qed.

(** C1 (spec-modelled). Constraint soundness: every record in the result
    list of the pipeline has [price <= budget], [ram >= min_ram],
    [ssd + hdd >= min_storage], and the os constraint is "any" or equals the
    record's operating system. *)
Theorem recommend_constraint_sound
    (cpu_performance : LaptopRecord -> Q) (catalog : list LaptopRecord)
    (hc : HardConstraints) (prefs : SoftPreferences) (res : ScoredResult) :
  In res (recommend cpu_performance catalog hc prefs) ->
  let r := result_record res in
  price r <= budget hc /\ min_ram hc <= QN (ram_GB r)
  /\ min_storage hc <= QN (ssd_GB r + hard_disk_GB r)
  /\ (os hc = "any" \/ os hc = operating_system r).
Proof.
  intros H. apply recommend_from_filter in H.
  unfold filter_catalog in H. apply filter_In in H as [_ H].
  apply passes_sound in H. exact H.
Qed.

Lemma fold_min_le (xs : list Q) (acc : Q) :
  fold_left Qmin xs acc <= acc /\ (forall x, In x xs -> fold_left Qmin xs acc <= x).
Proof.
  revert acc. induction xs as [|y ys IH]; simpl; intros acc.
  - split; [apply Qle_refl | done].
  - destruct (IH (Qmin acc y)) as [H1 H2].
    pose proof (Q.le_min_l acc y). pose proof (Q.le_min_r acc y).
    split; [eapply Qle_trans; eauto|].
    intros x [<-|Hx]; [eapply Qle_trans; eauto | auto].
Qed.

Lemma fold_max_ge (xs : list Q) (acc : Q) :
  acc <= fold_left Qmax xs acc /\ (forall x, In x xs -> x <= fold_left Qmax xs acc).
Proof.
  revert acc. induction xs as [|y ys IH]; simpl; intros acc.
  - split; [apply Qle_refl | done].
  - destruct (IH (Qmax acc y)) as [H1 H2].
    pose proof (Q.le_max_l acc y). pose proof (Q.le_max_r acc y).
    split; [eapply Qle_trans; eauto|].
    intros x [<-|Hx]; [eapply Qle_trans; eauto | auto].
Qed.

Lemma Qlist_min_le (l : list Q) (x : Q) : In x l -> Qlist_min l <= x.
Proof.
  destruct l as [|y ys]; simpl; [done|].
  destruct (fold_min_le ys y) as [H1 H2]. intros [<-|H]; auto.
Qed.

Lemma Qlist_max_ge (l : list Q) (x : Q) : In x l -> x <= Qlist_max l.
Proof.
  destruct l as [|y ys]; simpl; [done|].
  destruct (fold_max_ge ys y) as [H1 H2]. intros [<-|H]; auto.
Qed.

Lemma normalize_bounds cpu subset f r :
  In r subset -> 0 <= normalize cpu subset f r <= 1.
Proof.
  intros Hin. unfold normalize.
  assert (Hv : In (field_value cpu f r) (map (field_value cpu f) subset))
    by (apply in_map; exact Hin).
  pose proof (Qlist_min_le _ _ Hv) as Hmn. pose proof (Qlist_max_ge _ _ Hv) as Hmx.
  set (mn := Qlist_min (map (field_value cpu f) subset)) in *.
  set (mx := Qlist_max (map (field_value cpu f) subset)) in *.
  set (v := field_value cpu f r) in *.
  destruct (Qeq_bool mx mn) eqn:E.
  - split; unfold Qle; simpl; lia.
  - assert (Hne : ~ mx == mn) by (intros Heq; apply Qeq_bool_iff in Heq; congruence).
    assert (Hpos : 0 < mx - mn).
    { destruct (Qlt_le_dec mn mx) as [Hl|Hl]; [lra|].
      exfalso. apply Hne. apply Qle_antisym; lra. }
    split.
    + apply Qle_shift_div_l; [exact Hpos|]. lra.
    + apply Qle_shift_div_r; [exact Hpos|]. lra.
Qed.

Lemma effective_weight_bounds prefs f :
  weights_in_range prefs -> 1 <= effective_weight prefs f <= 3.
Proof.
  intros Hw. unfold effective_weight.
  destruct (prefs !! field_key f) as [w|] eqn:E; simpl.
  - destruct (Hw _ _ E) as [H|[H|H]]; rewrite H; split; unfold Qle; simpl; lia.
  - split; unfold Qle; simpl; lia.
Qed.

Lemma weight_total_ge_5 prefs :
  weights_in_range prefs -> 5 <= weight_total prefs.
Proof.
  intros Hw. unfold weight_total, scorable_fields; simpl.
  pose proof (effective_weight_bounds prefs CpuPerformance Hw).
  pose proof (effective_weight_bounds prefs RamGB Hw).
  pose proof (effective_weight_bounds prefs TotalStorageGB Hw).
  pose proof (effective_weight_bounds prefs SsdGB Hw).
  pose proof (effective_weight_bounds prefs ScreenSize Hw).
  lra.
Qed.

Lemma weighted_term_bounds (w n : Q) :
  0 <= w -> 0 <= n <= 1 -> 0 <= w * n <= w.
Proof.
  intros Hw [Hn0 Hn1]. split.
  - apply Qmult_le_0_compat; assumption.
  - assert (0 <= w * (1 - n)) by (apply Qmult_le_0_compat; lra).
    lra.
Qed.

Lemma weighted_sum_bounds cpu subset prefs r :
  In r subset -> weights_in_range prefs ->
  0 <= weighted_sum cpu subset prefs r <= weight_total prefs.
Proof.
  intros Hin Hw. unfold weighted_sum, weight_total.
  induction scorable_fields as [|f fs IH]; simpl.
  - split; apply Qle_refl.
  - pose proof (effective_weight_bounds prefs f Hw) as [Hw1 _].
    pose proof (normalize_bounds cpu subset f r Hin) as Hn.
    pose proof (weighted_term_bounds (effective_weight prefs f)
                  (normalize cpu subset f r) ltac:(lra) Hn).
    lra.
Qed.

(** C2 (spec-modelled). Score bounds: for every filtered subset, every
    record of it and every soft-preference mapping whose weights are taken
    from {1, 2, 3} (absent fields having effective weight 1), every field's
    effective weight is at least 1, the divisor [Σ weight_f] is non-zero, and
    the composite score lies in [0, 100]. *)
Theorem composite_in_0_100 (cpu_performance : LaptopRecord -> Q)
    (subset : list LaptopRecord) (prefs : SoftPreferences) (r : LaptopRecord) :
  In r subset -> weights_in_range prefs ->
  (forall f, 1 <= effective_weight prefs f)
  /\ ~ weight_total prefs == 0
  /\ 0 <= composite cpu_performance subset prefs r <= 100.
Proof.
  intros Hin Hw.
  pose proof (weight_total_ge_5 prefs Hw) as Ht.
  pose proof (weighted_sum_bounds cpu_performance subset prefs r Hin Hw) as [H0 H1].
  split; [intros f; apply (effective_weight_bounds prefs f Hw)|].
  split; [intros Heq; lra|].
  unfold composite.
  assert (Hpos : 0 < weight_total prefs) by lra.
  split.
  - apply Qle_shift_div_l; [exact Hpos|]. lra.
  - apply Qle_shift_div_r; [exact Hpos|]. lra.
Qed.

Lemma recommend_constraint_sound_witness :
  In (nth 0 (recommend demo_cpu demo_catalog demo_hc demo_prefs) demo_dummy)
     (recommend demo_cpu demo_catalog demo_hc demo_prefs)
  /\ let r := result_record
                (nth 0 (recommend demo_cpu demo_catalog demo_hc demo_prefs) demo_dummy) in
     price r <= budget demo_hc /\ min_ram demo_hc <= QN (ram_GB r)
     /\ min_storage demo_hc <= QN (ssd_GB r + hard_disk_GB r)
     /\ (os demo_hc = "any" \/ os demo_hc = operating_system r).
Proof.
  assert (H : In (nth 0 (recommend demo_cpu demo_catalog demo_hc demo_prefs) demo_dummy)
                 (recommend demo_cpu demo_catalog demo_hc demo_prefs))
    by (vm_compute; left; reflexivity).
  exact (conj H (recommend_constraint_sound demo_cpu demo_catalog demo_hc demo_prefs _ H)).
Defined.

Lemma demo_prefs_in_range : weights_in_range demo_prefs.
Proof.
  intros k w H. unfold demo_prefs in H.
  apply lookup_insert_Some in H as [[_ <-]|[_ H]].
  - right; right; reflexivity.
  - rewrite lookup_empty in H. discriminate.
Qed.

Lemma composite_in_0_100_witness :
  let subset := filter_catalog demo_catalog demo_hc in
  In (nth 1 subset (nth 0 demo_catalog (mkLaptop "" "" "" 0 0 0 0 0 "" "" 0 0))) subset
  /\ weights_in_range demo_prefs
  /\ (forall f, 1 <= effective_weight demo_prefs f)
  /\ ~ weight_total demo_prefs == 0
  /\ 0 <= composite demo_cpu subset demo_prefs
           (nth 1 subset (nth 0 demo_catalog (mkLaptop "" "" "" 0 0 0 0 0 "" "" 0 0))) <= 100.
Proof.
  intros subset.
  assert (H : In (nth 1 subset (nth 0 demo_catalog (mkLaptop "" "" "" 0 0 0 0 0 "" "" 0 0)))
                 subset) by (vm_compute; right; left; reflexivity).
  exact (conj H (conj demo_prefs_in_range
    (composite_in_0_100 demo_cpu subset demo_prefs _ H demo_prefs_in_range))).
Defined.

End EngineFacts.

(** ** Proofs about the questionnaire frontend *)
Module UiFacts.
Import Ui.

(** How one event changes the answers held by the state module: not at all,
    emptied by [resetState], or through [_saveAnswer] on the answer read by a
    Continue click; and a submitted payload carries the answers afterwards. *)
Lemma step_answers (st : UIState) (e : Event) (st' : UIState) (out : option Payload) :
  step st e = (st', out) ->
  ((hardConstraints (app st') = hardConstraints (app st)
    /\ weights (app st') = weights (app st))
   \/ (hardConstraints (app st') = ∅ /\ weights (app st') = ∅)
   \/ (exists w q, e = EContinue w /\ enabled st e = true
       /\ question_at (currentQuestionIndex (app st)) = Some q
       /\ let answer := readCurrentAnswer (clearQuestionError (dom st))
                          (currentQuestionIndex (app st)) w in
          nullish answer = false
          /\ hardConstraints (app st') = hardConstraints (_saveAnswer q answer (app st))
          /\ weights (app st') = weights (_saveAnswer q answer (app st))))
  /\ (forall p, out = Some p ->
      hard_constraints p = hardConstraints (app st')
      /\ soft_preferences p = weights (app st')).
Proof.
  unfold step. destruct (enabled st e) eqn:Hen; simpl.
  2: { intros [= <- <-]. split; [left; auto | done]. }
  destruct e as [|w| | | | |r]; simpl.
  - intros [= <- <-]. unfold _onStart, _renderCurrent. simpl.
    split; [left|done]. case_match; auto.
  - unfold _onContinue. simpl.
    destruct (question_at (currentQuestionIndex (app st))) as [q|] eqn:Hq.
    2: { intros [= <- <-]. split; [left; auto|done]. }
    destruct (nullish _ || is_empty_string _) eqn:Hnull.
    { intros [= <- <-]. split; [left; auto|done]. }
    destruct (_ && _).
    { intros [= <- <-]. split; [left; auto|done]. }
    apply orb_false_iff in Hnull as [Hnull _].
    destruct (Z.leb last_index _).
    + unfold _submit. simpl. intros [= <- <-]. simpl.
      split; [right; right; exists w, q; eauto 10|].
      intros p [= <-]. auto.
    + intros [= <- <-]. unfold _renderCurrent. simpl.
      split; [|done]. right; right. exists w, q.
      repeat split; auto; case_match; reflexivity.
  - intros [= <- <-]. unfold _onBack, _renderCurrent, decrementIndex. simpl.
    split; [left|done]. repeat case_match; simpl; auto.
  - unfold _onSkip, markSkipped. simpl.
    destruct (question_at (currentQuestionIndex (app st))) as [q|] eqn:Hq.
    2: { intros [= <- <-]. split; [left; auto|done]. }
    destruct (Z.leb last_index _).
    + unfold _submit. intros [= <- <-]. simpl.
      split; [left; case_match; auto|].
      intros p [= <-]. simpl. case_match; auto.
    + intros [= <- <-]. unfold _renderCurrent. simpl.
      split; [left|done]. repeat case_match; simpl; auto.
  - intros [= <- <-]. simpl. split; [right; left; auto|done].
  - intros [= <- <-]. split; [left; auto|done].
  - intros [= <- <-]. split; [left|done]. unfold on_response.
    repeat case_match; simplify_eq/=; auto.
Qed.

(** The values [readCurrentAnswer] can return for question [q]. *)
Lemma readCurrentAnswer_cases (d : Dom) (idx : Z) (w : WidgetInput) (q : Question) :
  question_at idx = Some q ->
  let answer := readCurrentAnswer d idx w in
  answer = JNull
  \/ (q_inputType q = INumber /\ exists x, answer = JNum x)
  \/ (q_inputType q = ISelect /\ exists o, In o (q_options q) /\ answer = JStr (optval_string o))
  \/ (q_inputType q = IImportance
      /\ exists l, In l importance_levels /\ answer = JStr l).
Proof.
  intros Hq answer. subst answer. unfold readCurrentAnswer. rewrite Hq.
  destruct (negb _); [left; reflexivity|].
  destruct (q_inputType q) eqn:Ht, w as [|x|k|k]; auto.
  - right; left. eauto.
  - destruct (nth_error (q_options q) k) as [o|] eqn:Ho; [|auto].
    right; right; left. split; [reflexivity|]. exists o. split; [|reflexivity].
    eapply nth_error_In; eauto.
  - destruct (nth_error importance_levels k) as [l|] eqn:Hl; [|auto].
    right; right; right. split; [reflexivity|]. exists l. split; [|reflexivity].
    eapply nth_error_In; eauto.
Qed.

Lemma question_at_In (idx : Z) (q : Question) :
  question_at idx = Some q -> In q QUESTIONS.
Proof.
  unfold question_at. destruct (Z.ltb idx 0); [discriminate|].
  apply nth_error_In.
Qed.

Lemma IMPORTANCE_MAP_range (answer w : JSValue) :
  IMPORTANCE_MAP answer = Some w -> weight_ok "" w.
Proof.
  unfold IMPORTANCE_MAP, weight_ok.
  destruct answer; try discriminate.
  repeat case_match; intros [= <-]; auto.
Qed.

Lemma saveAnswer_weights_ok (q : Question) (answer : JSValue) (a : AppState) :
  map_Forall weight_ok (weights a) ->
  map_Forall weight_ok (weights (_saveAnswer q answer a)).
Proof.
  intros H. unfold _saveAnswer. destruct (nullish answer); [exact H|].
  destruct (q_type q); simpl; [exact H|].
  destruct (IMPORTANCE_MAP answer) as [w|] eqn:Hw; simpl; [|exact H].
  apply map_Forall_insert_2; [|exact H].
  exact (IMPORTANCE_MAP_range _ _ Hw).
Qed.

Lemma step_weights_ok (st : UIState) (e : Event) (st' : UIState) (out : option Payload) :
  step st e = (st', out) ->
  map_Forall weight_ok (weights (app st)) ->
  map_Forall weight_ok (weights (app st'))
  /\ (forall p, out = Some p -> map_Forall weight_ok (soft_preferences p)).
Proof.
  intros Hs Hinv. destruct (step_answers _ _ _ _ Hs) as [Hcase Hout].
  assert (Hst' : map_Forall weight_ok (weights (app st'))).
  { destruct Hcase as [[_ ->]|[[_ ->]|(w & q & _ & _ & _ & _ & _ & ->)]].
    - exact Hinv.
    - apply map_Forall_empty.
    - apply saveAnswer_weights_ok, Hinv. }
  split; [exact Hst'|]. intros p Hp. destruct (Hout p Hp) as [_ ->]. exact Hst'.
Qed.

Ltac solve_hc_ok :=
  split; intros Hk;
  [ try (destruct Hk as [Hk|[Hk|Hk]]; discriminate Hk); eexists; reflexivity
  | try discriminate Hk; subst; auto 6 ].

Lemma saveAnswer_soft_hc (q : Question) (answer : JSValue) (a : AppState) :
  q_type q = Soft -> hardConstraints (_saveAnswer q answer a) = hardConstraints a.
Proof.
  intros Ht. unfold _saveAnswer. rewrite Ht.
  destruct (nullish answer); [reflexivity|].
  destruct (IMPORTANCE_MAP answer); reflexivity.
Qed.

Lemma saveAnswer_hc_ok (d : Dom) (idx : Z) (w : WidgetInput) (q : Question)
    (a : AppState) :
  question_at idx = Some q ->
  nullish (readCurrentAnswer d idx w) = false ->
  map_Forall hc_value_ok (hardConstraints a) ->
  map_Forall hc_value_ok
    (hardConstraints (_saveAnswer q (readCurrentAnswer d idx w) a)).
Proof.
  intros Hq Hnn H.
  pose proof (readCurrentAnswer_cases d idx w q Hq) as Hc.
  pose proof (question_at_In idx q Hq) as Hin. clear Hq.
  simpl in Hin.
  repeat (destruct Hin as [<-|Hin]; [|]); try contradiction;
    try (rewrite saveAnswer_soft_hc; [exact H|reflexivity]);
    unfold _saveAnswer; rewrite Hnn; simpl;
    apply map_Forall_insert_2; try exact H;
    simpl in Hc;
    repeat match goal with
           | Hc : _ \/ _ |- _ => destruct Hc as [Hc|Hc]
           | Hc : _ /\ _ |- _ => destruct Hc as [? Hc]
           | Hc : exists _, _ |- _ => destruct Hc as [? Hc]
           end;
    try discriminate;
    try (rewrite Hc in Hnn; discriminate Hnn);
    repeat match goal with
           | H' : In _ _ |- _ =>
               simpl in H'; repeat (destruct H' as [<-|H']); try contradiction
           end;
    try contradiction; subst; rewrite Hc; simpl; solve_hc_ok.
Qed.

Lemma step_hc_ok (st : UIState) (e : Event) (st' : UIState) (out : option Payload) :
  step st e = (st', out) ->
  map_Forall hc_value_ok (hardConstraints (app st)) ->
  map_Forall hc_value_ok (hardConstraints (app st'))
  /\ (forall p, out = Some p -> map_Forall hc_value_ok (hard_constraints p)).
Proof.
  intros Hs Hinv. destruct (step_answers _ _ _ _ Hs) as [Hcase Hout].
  assert (Hst' : map_Forall hc_value_ok (hardConstraints (app st'))).
  { destruct Hcase as [[-> _]|[[-> _]|(w & q & _ & _ & Hq & Hnn & -> & _)]].
    - exact Hinv.
    - apply map_Forall_empty.
    - apply (saveAnswer_hc_ok _ _ _ q); assumption. }
  split; [exact Hst'|]. intros p Hp. destruct (Hout p Hp) as [-> _]. exact Hst'.
Qed.

Section RunInvariant.
  Variable P : UIState -> Prop.
  Variable PP : Payload -> Prop.
  Hypothesis P_step : forall st e st' out,
    step st e = (st', out) -> P st -> P st' /\ (forall p, out = Some p -> PP p).

Lemma run_invariant (evs : list Event) (st : UIState) :
  P st -> P (fst (run st evs)) /\ (forall p, In p (snd (run st evs)) -> PP p).
Proof.
  revert st. induction evs as [|e es IH]; intros st Hst; simpl.
  - split; [exact Hst | done].
  - destruct (step st e) as [st1 out] eqn:Hs.
    destruct (P_step _ _ _ _ Hs Hst) as [H1 Hout].
    destruct (run st1 es) as [st2 ps] eqn:Hr.
    destruct (IH st1 H1) as [H2 Hps]. rewrite Hr in H2, Hps. simpl in *.
    split; [exact H2|]. intros p Hp. apply in_app_or in Hp as [Hp|Hp].
    + destruct out as [p'|]; simpl in Hp; [|contradiction].
      destruct Hp as [<-|[]]. apply Hout. reflexivity.
    + apply Hps, Hp.
Qed.
End RunInvariant.

Lemma run_weights_ok (evs : list Event) (st : UIState) :
  map_Forall weight_ok (weights (app st)) ->
  map_Forall weight_ok (weights (app (fst (run st evs))))
  /\ (forall p, In p (snd (run st evs)) -> map_Forall weight_ok (soft_preferences p)).
Proof.
  apply (run_invariant (fun st => map_Forall weight_ok (weights (app st)))
           (fun p => map_Forall weight_ok (soft_preferences p))).
  intros st0 e st' out Hs H. exact (step_weights_ok _ _ _ _ Hs H).
Qed.

(** C4. Every weight ever held in the state module's weights map, and every
    weight of a submitted [soft_preferences], is the number 1, 2 or 3: the
    only [setWeight] call stores [IMPORTANCE_MAP[answer]] (High 3, Medium 2,
    Low 1). *)
Theorem weights_always_1_2_3 (evs : list Event) :
  (forall k v, weights (app (fst (run initial_ui evs))) !! k = Some v ->
               v = JNum 1 \/ v = JNum 2 \/ v = JNum 3)
  /\ (forall p, In p (snd (run initial_ui evs)) ->
      forall k v, soft_preferences p !! k = Some v ->
                  v = JNum 1 \/ v = JNum 2 \/ v = JNum 3).
Proof.
  destruct (run_weights_ok evs initial_ui (map_Forall_empty _)) as [H1 H2].
  split.
  - intros k v Hk. exact (H1 k v Hk).
  - intros p Hp k v Hk. exact (H2 p Hp k v Hk).
Qed.

(** C5. Every submitted [hard_constraints] follows the request contract:
    [budget], [min_ram] and [min_storage], when present, are numbers, and
    [os], when present, is one of "any", "Windows", "DOS", "Ubuntu". *)
Theorem payload_hard_constraints_typed (evs : list Event) (p : Payload) :
  In p (snd (run initial_ui evs)) ->
  (forall v, hard_constraints p !! "budget" = Some v -> exists x, v = JNum x)
  /\ (forall v, hard_constraints p !! "min_ram" = Some v -> exists x, v = JNum x)
  /\ (forall v, hard_constraints p !! "min_storage" = Some v -> exists x, v = JNum x)
  /\ (forall v, hard_constraints p !! "os" = Some v ->
      v = JStr "any" \/ v = JStr "Windows" \/ v = JStr "DOS" \/ v = JStr "Ubuntu").
Proof.
  intros Hp.
  destruct (run_invariant (fun st => map_Forall hc_value_ok (hardConstraints (app st)))
              (fun p => map_Forall hc_value_ok (hard_constraints p)) step_hc_ok
              evs initial_ui (map_Forall_empty _)) as [_ H].
  pose proof (H p Hp) as Hok.
  split; [|split; [|split]]; intros v Hv; destruct (Hok _ _ Hv) as [Hn Ho]; auto.
Qed.

Lemma step_field_absent (f : string) (st : UIState) (e : Event) (st' : UIState)
    (out : option Payload) :
  step st e = (st', out) -> answers_field f st e = false ->
  weights (app st) !! f = None ->
  weights (app st') !! f = None
  /\ (forall p, out = Some p -> soft_preferences p !! f = None).
Proof.
  intros Hs Hans Hf. destruct (step_answers _ _ _ _ Hs) as [Hcase Hout].
  assert (Hst' : weights (app st') !! f = None).
  { destruct Hcase as [[_ ->]|[[_ ->]|(w & q & -> & Hen & Hq & Hnn & _ & ->)]].
    - exact Hf.
    - apply lookup_empty.
    - unfold answers_field in Hans. rewrite Hen, Hq in Hans. simpl in Hans.
      unfold _saveAnswer. rewrite Hnn.
      destruct (q_type q); [exact Hf|].
      rewrite Hnn in Hans. simpl in Hans.
      destruct (String.eqb _ f) eqn:Heq; simpl in Hans.
      + apply negb_false_iff in Hans.
        destruct (readCurrentAnswer _ _ _) as [| | | | |s| |]; try discriminate.
        apply String.eqb_eq in Hans. subst s. exact Hf.
      + destruct (IMPORTANCE_MAP _); simpl; [|exact Hf].
        apply String.eqb_neq in Heq. rewrite lookup_insert_ne; [exact Hf|].
        exact Heq. }
  split; [exact Hst'|]. intros p Hp. destruct (Hout p Hp) as [_ ->]. exact Hst'.
Qed.

Lemma run_field_absent (f : string) (evs : list Event) (st : UIState) :
  weights (app st) !! f = None -> never_answered f st evs ->
  forall p, In p (snd (run st evs)) -> soft_preferences p !! f = None.
Proof.
  revert st. induction evs as [|e es IH]; intros st Hf Hna p Hp; simpl in *;
    [contradiction|].
  destruct Hna as [Hans Hna].
  destruct (step st e) as [st1 out] eqn:Hs. simpl in Hna.
  destruct (step_field_absent f _ _ _ _ Hs Hans Hf) as [H1 Hout].
  destruct (run st1 es) as [st2 ps] eqn:Hr. simpl in Hp.
  apply in_app_or in Hp as [Hp|Hp].
  - destruct out as [p'|]; simpl in Hp; [|contradiction].
    destruct Hp as [<-|[]]. apply Hout. reflexivity.
  - pose proof (IH st1 H1 Hna p) as Hp'. rewrite Hr in Hp'. exact (Hp' Hp).
Qed.

(** C6 (as amended). [_onSkip] records the skip and advances without
    calling [setWeight], and no weight 0 is ever sent: from any point of a
    run where the weights map has no key [f] (for instance right after a
    restart), if no later Continue click answers the soft question writing
    [f] (a click rejected for a missing answer does not count), every
    payload submitted afterwards lacks [f] in [soft_preferences]; and every
    weight it carries is non-zero. *)
Theorem unanswered_field_absent (evs0 evs : list Event) (f : string) :
  let st := fst (run initial_ui evs0) in
  weights (app st) !! f = None -> never_answered f st evs ->
  forall p, In p (snd (run st evs)) ->
  soft_preferences p !! f = None
  /\ (forall k v, soft_preferences p !! k = Some v -> v <> JNum 0).
Proof.
  intros st Hf Hna p Hp. split.
  - exact (run_field_absent f evs st Hf Hna p Hp).
  - destruct (run_weights_ok evs0 initial_ui (map_Forall_empty _)) as [Hst _].
    destruct (run_weights_ok evs st Hst) as [_ Hps].
    intros k v Hk. destruct (Hps p Hp k v Hk) as [ -> | [ -> | -> ] ]; discriminate.
Qed.

(** C6 fails as stated: the performance question is answered "High", then
    revisited and skipped, and never answered again; it is in the skipped
    list, yet the submitted [soft_preferences] keeps [cpu_performance: 3]. *)
Lemma skipped_question_keeps_weight :
  In "weight_performance" (skipped (app (fst (run initial_ui answered_then_skipped_run))))
  /\ map (fun p => soft_preferences p !! "cpu_performance")
       (snd (run initial_ui answered_then_skipped_run)) = [Some (JNum 3)].
Proof. vm_compute. split; [auto 10 | reflexivity]. Qed.

(** C7. A successful response whose [results] is missing, null or an empty
    array is handled as a success: [#results-list] shows the "No laptops
    matched your criteria" message, [lastResults] is set to [], and the
    fatal-error path is not taken (the section shown and the question
    container are unchanged). *)
Theorem empty_results_not_an_error (st : UIState) (r : Response)
    (fs : list (string * JSValue)) :
  Nat.ltb 0 (pending st) = true -> resp_ok r = true ->
  resp_body r = Some (JObj fs) ->
  get_field fs "results" = None \/ get_field fs "results" = Some JNull
  \/ get_field fs "results" = Some (JArr []) ->
  let st' := fst (step st (EResponse r)) in
  results_list (dom st') = LNoResults /\ lastResults (app st') = JArr []
  /\ container (dom st') = container (dom st) /\ screen (dom st') = screen (dom st).
Proof.
  intros Hpend Hok Hbody Hres. unfold step, enabled.
  assert (Hen : (match EResponse r, screen (dom st) with
                 | EStart, SLanding => true
                 | EContinue _, SQuestionnaire => true
                 | EBack, SQuestionnaire => back_visible (dom st)
                 | ESkip, SQuestionnaire => skip_visible (dom st)
                 | (ERestart | EExport), SResults => true
                 | EResponse _, _ => Nat.ltb 0 (pending st)
                 | _, _ => false
                 end) = true) by (destruct (screen (dom st)); exact Hpend).
  rewrite Hen. simpl. unfold on_response. rewrite Hok, Hbody. simpl.
  unfold get_prop.
  destruct Hres as [ -> | [ -> | -> ] ]; simpl; auto.
Qed.

(** C3 does not hold: after the restart during the in-flight request and
    its failure, Skip runs [_onSkip] on the required budget question, and
    the second submitted payload has no [budget] key at all. *)
Theorem stale_failure_submits_without_budget :
  map (fun p => hard_constraints p !! "budget")
    (snd (run initial_ui stale_failure_run)) = [Some (JNum 50000); None].
Proof. vm_compute. reflexivity. Qed.

Lemma payload_hard_constraints_typed_witness :
  In (nth 0 (snd (run initial_ui ram_skipped_run)) (mkPayload ∅ ∅))
     (snd (run initial_ui ram_skipped_run))
  /\ (forall v, hard_constraints (nth 0 (snd (run initial_ui ram_skipped_run))
                                    (mkPayload ∅ ∅)) !! "min_ram" = Some v ->
                exists x, v = JNum x).
Proof.
  assert (H : In (nth 0 (snd (run initial_ui ram_skipped_run)) (mkPayload ∅ ∅))
                 (snd (run initial_ui ram_skipped_run)))
    by (vm_compute; left; reflexivity).
  exact (conj H (proj1 (proj2 (payload_hard_constraints_typed _ _ H)))).
Defined.

Lemma unanswered_field_absent_witness :
  weights (app (fst (run initial_ui []))) !! "ram(GB)" = None
  /\ never_answered "ram(GB)" (fst (run initial_ui [])) ram_blank_then_skipped_run
  /\ (forall p, In p (snd (run (fst (run initial_ui [])) ram_blank_then_skipped_run)) ->
      soft_preferences p !! "ram(GB)" = None
      /\ (forall k v, soft_preferences p !! k = Some v -> v <> JNum 0)).
Proof.
  assert (Hf : weights (app (fst (run initial_ui []))) !! "ram(GB)" = None)
    by reflexivity.
  assert (Hna : never_answered "ram(GB)" (fst (run initial_ui [])) ram_blank_then_skipped_run)
    by (vm_compute; repeat split).
  exact (conj Hf (conj Hna (unanswered_field_absent [] ram_blank_then_skipped_run "ram(GB)" Hf Hna))).
Defined.

Lemma empty_results_not_an_error_witness :
  let st := fst (run initial_ui ram_skipped_run) in
  let r := mkResponse true (Some (JObj [("results", JArr [])])) in
  let st' := fst (step st (EResponse r)) in
  results_list (dom st') = LNoResults /\ lastResults (app st') = JArr []
  /\ container (dom st') = container (dom st) /\ screen (dom st') = screen (dom st).
Proof.
  apply (empty_results_not_an_error _ _ [("results", JArr [])]);
    [vm_compute; reflexivity | reflexivity | reflexivity | right; right; reflexivity].
Defined.

Lemma has_char_append (c : Ascii.ascii) (s t : string) :
  has_char c (String.append s t) = has_char c s || has_char c t.
Proof.
  induction s as [|x s IH]; simpl; [reflexivity|].
  destruct (Ascii.ascii_dec x c); [reflexivity | exact IH].
Qed.

Lemma replace_all_removes (c : Ascii.ascii) (rep s : string) :
  has_char c rep = false -> has_char c (replace_all c rep s) = false.
Proof.
  intros Hrep. induction s as [|x s IH]; simpl; [reflexivity|].
  destruct (Ascii.ascii_dec x c).
  - rewrite has_char_append, Hrep, IH. reflexivity.
  - simpl. destruct (Ascii.ascii_dec x c); [contradiction | exact IH].
Qed.

Lemma replace_all_keeps (d c : Ascii.ascii) (rep s : string) :
  has_char d rep = false -> has_char d s = false ->
  has_char d (replace_all c rep s) = false.
Proof.
  intros Hrep. induction s as [|x s IH]; simpl; [reflexivity|].
  destruct (Ascii.ascii_dec x d) as [Hxd|Hxd]; [discriminate|]. intros Hs.
  destruct (Ascii.ascii_dec x c).
  - rewrite has_char_append, Hrep, (IH Hs). reflexivity.
  - simpl. destruct (Ascii.ascii_dec x d); [contradiction | exact (IH Hs)].
Qed.

(** C9. [_esc] returns the empty string for null and undefined, and for
    every input its result contains no less-than, greater-than, double quote
    or single quote character: after the ampersand is replaced first, each of them is replaced by an entity that
    contains none of them.  This holds whatever [String(str)] yields. *)
Theorem esc_removes_markup (js_String : JSValue -> string) (str : JSValue) :
  _esc js_String JNull = "" /\ _esc js_String JUndef = ""
  /\ has_char "<" (_esc js_String str) = false
  /\ has_char ">" (_esc js_String str) = false
  /\ has_char dquote (_esc js_String str) = false
  /\ has_char squote (_esc js_String str) = false.
Proof.
  split; [reflexivity|]. split; [reflexivity|].
  unfold _esc. destruct (nullish str); [repeat split|].
  set (s0 := replace_all "&" "&amp;" (js_String str)).
  repeat split.
  - apply replace_all_keeps; [reflexivity|].
    apply replace_all_keeps; [reflexivity|].
    apply replace_all_keeps; [reflexivity|].
    apply replace_all_removes; reflexivity.
  - apply replace_all_keeps; [reflexivity|].
    apply replace_all_keeps; [reflexivity|].
    apply replace_all_removes; reflexivity.
  - apply replace_all_keeps; [reflexivity|].
    apply replace_all_removes; reflexivity.
  - apply replace_all_removes; reflexivity.
Qed.

End UiFacts.

(** ** Proofs about js/state.js *)
Module StateHeapFacts.
Import StateHeap.

Lemma exec_index_nonneg (m m' : ModState) (op : Op) (v : Val) :
  (0 <= currentQuestionIndex m)%Z -> exec m op = Some (m', v) ->
  (0 <= currentQuestionIndex m')%Z.
Proof.
  intros H E. destruct op as [g| | | | | | | | | | |]; simpl in E;
    unfold get, setHardConstraint, setWeight, set_prop, markSkipped, unmarkSkipped,
      decrementIndex, incrementIndex, set_index, write_obj, alloc, setLastResults,
      resetState, fresh_state in *;
    repeat case_match; simplify_eq/=; try lia.
Qed.

Lemma run_ops_index_nonneg (ops : list Op) (m : ModState) :
  (0 <= currentQuestionIndex m)%Z -> (0 <= currentQuestionIndex (run_ops m ops))%Z.
Proof.
  unfold run_ops. revert m. induction ops as [|op ops IH]; intros m H; simpl; [exact H|].
  apply IH. destruct (exec m op) as [[m' v]|] eqn:E; [|exact H].
  exact (exec_index_nonneg _ _ _ _ H E).
Qed.

(** C10. The questionnaire index is never negative: it starts at 0,
    [incrementIndex] adds 1, [decrementIndex] subtracts 1 only when it is
    positive, [resetState] sets it to 0, and after any sequence of
    operations [getCurrentIndex()] returns a number [>= 0]. *)
Theorem current_index_nonneg :
  currentQuestionIndex initial_mod = 0%Z
  /\ (forall m, currentQuestionIndex (incrementIndex m) = (currentQuestionIndex m + 1)%Z)
  /\ (forall m, currentQuestionIndex (decrementIndex m)
                = if Z.ltb 0 (currentQuestionIndex m)
                  then (currentQuestionIndex m - 1)%Z else currentQuestionIndex m)
  /\ (forall m, currentQuestionIndex (resetState m) = 0%Z)
  /\ (forall ops, exists x,
        exec (run_ops initial_mod ops) OGetCurrentIndex
        = Some (run_ops initial_mod ops, VNum x) /\ (0 <= x)%Q).
Proof.
  split; [reflexivity|]. split; [reflexivity|].
  split; [intros m; unfold decrementIndex; destruct (Z.ltb 0 _); reflexivity|].
  split; [reflexivity|].
  intros ops. eexists. split; [reflexivity|].
  change 0%Q with (inject_Z 0). rewrite <- Zle_Qle.
  apply run_ops_index_nonneg. simpl. lia.
Qed.

Lemma bound_insert (h : gmap positive HObj) (n : positive) (o : HObj) :
  (forall l o', h !! l = Some o' -> (l < n)%positive) ->
  forall l o', <[n := o]> h !! l = Some o' -> (l < Pos.succ n)%positive.
Proof.
  intros Hb l o' Hl. apply lookup_insert_Some in Hl as [[<- _]|[_ Hl]]; [lia|].
  apply Hb in Hl. lia.
Qed.

Lemma alloc_wf (o : HObj) (m : ModState) : wf m -> wf (fst (alloc o m)).
Proof.
  intros (Hb & Hh & Hw & Hs & Hl). unfold wf, alloc; simpl. split_and!.
  - exact (bound_insert _ _ _ Hb).
  - rewrite lookup_insert_is_Some'. auto.
  - rewrite lookup_insert_is_Some'. auto.
  - rewrite lookup_insert_is_Some'. auto.
  - intros l Hr. rewrite lookup_insert_is_Some'. auto.
Qed.

Lemma wf_fresh (m : ModState) : wf m -> heap m !! next_loc m = None.
Proof.
  intros (Hb & _). destruct (heap m !! next_loc m) eqn:E; [|reflexivity].
  apply Hb in E. lia.
Qed.

Lemma write_wf (l : positive) (o : HObj) (m : ModState) :
  wf m -> is_Some (heap m !! l) -> wf (write_obj l o m).
Proof.
  intros (Hb & Hh & Hw & Hs & Hl) [o0 Ho0]. unfold wf, write_obj; simpl. split_and!.
  - intros l' o' Hl'. apply lookup_insert_Some in Hl' as [[<- _]|[_ Hl']];
      [exact (Hb _ _ Ho0) | exact (Hb _ _ Hl')].
  - rewrite lookup_insert_is_Some'. auto.
  - rewrite lookup_insert_is_Some'. auto.
  - rewrite lookup_insert_is_Some'. auto.
  - intros l' Hr. rewrite lookup_insert_is_Some'. auto.
Qed.

Lemma fresh_state_wf (h : gmap positive HObj) (n : positive) :
  (forall l o, h !! l = Some o -> (l < n)%positive) -> wf (fresh_state h n).
Proof.
  intros Hb. unfold wf, fresh_state, alloc; simpl. split_and!.
  - do 4 apply bound_insert. exact Hb.
  - rewrite !lookup_insert_is_Some'. intuition.
  - rewrite !lookup_insert_is_Some'. intuition.
  - rewrite !lookup_insert_is_Some'. intuition.
  - intros l [= <-]. rewrite !lookup_insert_is_Some'. intuition.
Qed.

Lemma initial_mod_wf : wf initial_mod.
Proof. apply fresh_state_wf. intros l o H. rewrite lookup_empty in H. discriminate. Qed.

(** A getter allocates one new object, a copy of the object it reads. *)
Lemma get_alloc (g : Getter) (m m' : ModState) (v : Val) :
  get g m = Some (m', v) ->
  exists o, m' = fst (alloc o m) /\ v = VRef (next_loc m)
    /\ (forall r, getter_root g m = Some r -> heap m !! r = Some o).
Proof.
  unfold get, spread_array. destruct g; simpl.
  - destruct (heap m !! hardConstraints m) as [[p|xs]|] eqn:E; intros H; simplify_eq/=.
    exists (HRec p). split_and!; [reflexivity | reflexivity | intros r [= <-]; exact E].
  - destruct (heap m !! weights m) as [[p|xs]|] eqn:E; intros H; simplify_eq/=.
    exists (HRec p). split_and!; [reflexivity | reflexivity | intros r [= <-]; exact E].
  - destruct (heap m !! skipped m) as [[p|xs]|] eqn:E; intros H; simplify_eq/=.
    exists (HArr xs). split_and!; [reflexivity | reflexivity | intros r [= <-]; exact E].
  - destruct (lastResults m) as [| | | | |s|l] eqn:Elr; intros H; simplify_eq/=.
    + eexists. split_and!; [reflexivity | reflexivity | discriminate].
    + destruct (heap m !! l) as [[p|xs]|] eqn:E; simplify_eq/=.
      exists (HArr xs). split_and!; [reflexivity | reflexivity | intros r [= <-]; exact E].
Qed.

Lemma exists_ref_wf (m : ModState) (v : Val) :
  exists_ref m v = true -> forall l, v = VRef l -> is_Some (heap m !! l).
Proof. intros H l ->. simpl in H. exact (bool_decide_eq_true_1 _ H). Qed.

Lemma exec_wf (m m' : ModState) (op : Op) (v : Val) :
  wf m -> exec m op = Some (m', v) -> wf m'.
Proof.
  intros Hwf E. pose proof Hwf as (Hb & Hh & Hw & Hs & Hl).
  destruct op as [g| | | |id v0|f w|id|id|v0| |o|l o]; simpl in E.
  - destruct (get_alloc _ _ _ _ E) as (o & -> & _ & _). exact (alloc_wf _ _ Hwf).
  - simplify_eq. exact Hwf.
  - simplify_eq. exact Hwf.
  - simplify_eq. unfold decrementIndex. destruct (Z.ltb _ _); exact Hwf.
  - destruct (exists_ref m v0); [|discriminate].
    unfold setHardConstraint, set_prop in E.
    destruct (heap m !! hardConstraints m) as [[p|xs]|] eqn:Hr; simpl in E; try discriminate.
    destruct (String.eqb _ _); simplify_eq/=; [exact Hwf|].
    apply write_wf; [exact Hwf | rewrite Hr; eexists; reflexivity].
  - destruct (exists_ref m w); [|discriminate].
    unfold setWeight, set_prop in E.
    destruct (heap m !! weights m) as [[p|xs]|] eqn:Hr; simpl in E; try discriminate.
    destruct (String.eqb _ _); simplify_eq/=; [exact Hwf|].
    apply write_wf; [exact Hwf | rewrite Hr; eexists; reflexivity].
  - destruct (exists_ref m id); [|discriminate].
    unfold markSkipped in E.
    destruct (heap m !! skipped m) as [[p|xs]|] eqn:Hr; simplify_eq/=.
    destruct (existsb _ _); simplify_eq/=; [exact Hwf|].
    apply write_wf; [exact Hwf | rewrite Hr; eexists; reflexivity].
  - destruct (exists_ref m id); [|discriminate].
    unfold unmarkSkipped in E.
    destruct (heap m !! skipped m) as [[p|xs]|] eqn:Hr; simplify_eq/=.
    pose proof (alloc_wf (HArr (List.filter (fun x => negb (strict_eq x id)) xs)) m Hwf)
      as (Hb' & Hh' & Hw' & _ & Hl').
    unfold wf, alloc in *; simpl in *. split_and!; auto.
    apply lookup_insert_is_Some'. auto.
  - destruct (exists_ref m v0) eqn:Er; [|discriminate]. simplify_eq/=.
    unfold setLastResults, wf; simpl. split_and!; auto.
    exact (exists_ref_wf _ _ Er).
  - simplify_eq. apply fresh_state_wf. exact Hb.
  - simplify_eq. exact (alloc_wf _ _ Hwf).
  - case_bool_decide as Hl0; [|discriminate]. simplify_eq.
    exact (write_wf _ _ _ Hwf Hl0).
Qed.

Lemma run_ops_wf (ops : list Op) (m : ModState) : wf m -> wf (run_ops m ops).
Proof.
  unfold run_ops. revert m. induction ops as [|op ops IH]; intros m H; simpl; [exact H|].
  apply IH. destruct (exec m op) as [[m' v]|] eqn:E; [|exact H].
  exact (exec_wf _ _ _ _ H E).
Qed.

(** Writing an object that the state does not reach leaves the view alone. *)
Lemma view_write_unreached (k : positive) (o : HObj) (m : ModState) :
  wf m -> heap m !! k = None -> view (write_obj k o m) = view m.
Proof.
  intros (_ & Hh & Hw & Hs & Hl) Hk.
  assert (Hne : forall r, is_Some (heap m !! r) -> k <> r).
  { intros r [x Hx] ->. congruence. }
  pose proof (Hne _ Hh) as N1. pose proof (Hne _ Hw) as N2. pose proof (Hne _ Hs) as N3.
  unfold view, write_obj; simpl.
  rewrite !lookup_insert_ne by assumption.
  destruct (lastResults m) as [| | | | | |l] eqn:Elr; try reflexivity.
  rewrite lookup_insert_ne by exact (Hne _ (Hl _ eq_refl)). reflexivity.
Qed.

(** C8 (as the code behaves).  Every getter returns a reference to a newly
    allocated object, absent from the heap before the call, whose contents
    are those of the state's object it copies; the call leaves the state's
    view unchanged, and any later write to the returned object leaves it
    unchanged too. *)
Theorem getter_returns_fresh_copy (ops : list Op) (g : Getter) (m' : ModState) (v : Val) :
  get g (run_ops initial_mod ops) = Some (m', v) ->
  exists l, v = VRef l
    /\ heap (run_ops initial_mod ops) !! l = None
    /\ (forall r, getter_root g (run_ops initial_mod ops) = Some r ->
                  heap m' !! l = heap (run_ops initial_mod ops) !! r)
    /\ view m' = view (run_ops initial_mod ops)
    /\ (forall o, view (write_obj l o m') = view (run_ops initial_mod ops)).
Proof.
  set (m := run_ops initial_mod ops). intros E.
  assert (Hwf : wf m) by exact (run_ops_wf ops _ initial_mod_wf).
  destruct (get_alloc _ _ _ _ E) as (o & -> & -> & Hroot).
  exists (next_loc m). split_and!.
  - reflexivity.
  - exact (wf_fresh _ Hwf).
  - intros r Hr. rewrite (Hroot r Hr). simpl. apply lookup_insert_eq.
  - change (view (write_obj (next_loc m) o m) = view m).
    exact (view_write_unreached _ _ _ Hwf (wf_fresh _ Hwf)).
  - intros o'. change (view (write_obj (next_loc m) o' (write_obj (next_loc m) o m)) = view m).
    unfold write_obj at 1; simpl. rewrite insert_insert_eq.
    exact (view_write_unreached _ o' _ Hwf (wf_fresh _ Hwf)).
Qed.

Lemma getter_returns_fresh_copy_witness :
  get GWeights (run_ops initial_mod []) = Some (fst (alloc (HRec ∅) initial_mod), VRef 5)
  /\ exists l, VRef 5 = VRef l
    /\ heap (run_ops initial_mod []) !! l = None
    /\ (forall r, getter_root GWeights (run_ops initial_mod []) = Some r ->
                  heap (fst (alloc (HRec ∅) initial_mod)) !! l = heap (run_ops initial_mod []) !! r)
    /\ view (fst (alloc (HRec ∅) initial_mod)) = view (run_ops initial_mod [])
    /\ (forall o, view (write_obj l o (fst (alloc (HRec ∅) initial_mod)))
                  = view (run_ops initial_mod [])).
Proof.
  split; [reflexivity|].
  apply (getter_returns_fresh_copy [] GWeights). reflexivity.
Defined.

(** C8 counterexample.  [setLastResults] keeps the caller's array: after
    outside code creates an empty array (location 5), passes it to
    [setLastResults], and then overwrites that array with one element,
    [getLastResults()] returns the new element although no setter ran in
    between. *)
Lemma set_last_results_aliased :
  let m1 := run_ops initial_mod [OAlloc (HArr []); OSetLastResults (VRef 5)] in
  let m2 := run_ops m1 [OWrite 5 (HArr [VNum 1])] in
  (match get GLastResults m1 with Some (m, VRef l) => heap m !! l | _ => None end)
    = Some (HArr [])
  /\ (match get GLastResults m2 with Some (m, VRef l) => heap m !! l | _ => None end)
    = Some (HArr [VNum 1])
  /\ view m2 <> view m1.
Proof.
  vm_compute. split; [reflexivity|]. split; [reflexivity|]. intros H. discriminate H.
Qed.

End StateHeapFacts.

(** ** Further properties of the questionnaire frontend *)
Module UiExtraFacts.
Import Ui.

Lemma question_at_some (idx : Z) (q : Question) :
  question_at idx = Some q -> In q QUESTIONS.
Proof.
  unfold question_at. destruct (Z.ltb idx 0); [discriminate|].
  apply nth_error_In.
Qed.

Lemma read_option (d : Dom) (idx : Z) (q : Question) (k : nat) (o : OptVal) :
  question_at idx = Some q -> container d = CQuestion idx ->
  q_inputType q = ISelect -> nth_error (q_options q) k = Some o ->
  readCurrentAnswer d idx (WOption k) = JStr (optval_string o).
Proof.
  intros Hq Hc Ht Ho. unfold readCurrentAnswer. rewrite Hq, Hc, Z.eqb_refl, Ht, Ho.
  reflexivity.
Qed.

Lemma read_level (d : Dom) (idx : Z) (q : Question) (k : nat) (l : string) :
  question_at idx = Some q -> container d = CQuestion idx ->
  q_inputType q = IImportance -> nth_error importance_levels k = Some l ->
  readCurrentAnswer d idx (WLevel k) = JStr l.
Proof.
  intros Hq Hc Ht Hl. unfold readCurrentAnswer. rewrite Hq, Hc, Z.eqb_refl, Ht, Hl.
  reflexivity.
Qed.

Lemma savedAnswer_hard (q : Question) (v : JSValue) (a : AppState) :
  q_type q = Hard -> nullish v = false ->
  _savedAnswer q (_saveAnswer q v a)
  = if (match q_inputType q with INumber => true | _ => false end)
       || existsb (String.eqb (q_id q)) numericHardFields
    then js_Number v else v.
Proof.
  intros Ht Hv. unfold _saveAnswer, _savedAnswer. rewrite Hv, Ht. simpl.
  rewrite lookup_insert_eq. reflexivity.
Qed.

(** Revisiting an importance question: after a Continue click saved the
    level picked with the [k]-th radio button, [_savedAnswer] gives that
    level back and [_buildImportance] renders exactly the [k]-th radio
    button checked. *)
Theorem saved_importance_rechecked (d : Dom) (idx : Z) (q : Question) (k : nat)
    (level : string) (a : AppState) :
  question_at idx = Some q -> container d = CQuestion idx ->
  q_inputType q = IImportance -> q_type q = Soft ->
  nth_error importance_levels k = Some level ->
  let saved := _savedAnswer q (_saveAnswer q (readCurrentAnswer d idx (WLevel k)) a) in
  saved = JStr level
  /\ importance_checked saved = map (fun j => Nat.eqb j k) (seq 0 3).
Proof.
  intros Hq Hc Hi Ht Hl saved. subst saved.
  rewrite (read_level _ _ _ _ _ Hq Hc Hi Hl).
  unfold _saveAnswer, _savedAnswer. simpl. rewrite Ht.
  destruct k as [|[|[|k]]]; simpl in Hl; [..|destruct k; discriminate];
    injection Hl as <-; simpl; unfold setWeight; simpl;
    rewrite lookup_insert_eq; split; reflexivity.
Qed.

Lemma saved_importance_rechecked_witness :
  let d := mkDom SQuestionnaire (CQuestion 5) false true true LEmpty in
  question_at 5 = Some (mkQuestion "weight_ram" Soft (Some "ram(GB)") IImportance [] false)
  /\ (let saved := _savedAnswer (mkQuestion "weight_ram" Soft (Some "ram(GB)") IImportance [] false)
                     (_saveAnswer (mkQuestion "weight_ram" Soft (Some "ram(GB)") IImportance [] false)
                        (readCurrentAnswer d 5 (WLevel 1)) initial_app) in
      saved = JStr "Medium"
      /\ importance_checked saved = map (fun j => Nat.eqb j 1) (seq 0 3)).
Proof.
  split; [reflexivity|].
  exact (saved_importance_rechecked (mkDom SQuestionnaire (CQuestion 5) false true true LEmpty)
           5 _ 1 "Medium" initial_app eq_refl eq_refl eq_refl eq_refl eq_refl).
Defined.

(** Revisiting a select question (OS, minimum RAM, minimum storage): after a
    Continue click saved the [k]-th option, [_buildSelect] renders exactly
    the [k]-th option selected.  The saved value went through [Number] for
    the numeric fields, and [String] turns it back into the option's value.
    The hypotheses are what [String] does on strings and integers. *)
Theorem saved_option_reselected (js_String : JSValue -> string)
    (Hstr : forall s, js_String (JStr s) = s)
    (Hnum : forall z, js_String (JNum (inject_Z z)) = Z_to_dec z)
    (d : Dom) (idx : Z) (q : Question) (k : nat) (o : OptVal) (a : AppState) :
  question_at idx = Some q -> container d = CQuestion idx ->
  q_inputType q = ISelect -> nth_error (q_options q) k = Some o ->
  select_selected js_String q
    (_savedAnswer q (_saveAnswer q (readCurrentAnswer d idx (WOption k)) a))
  = map (fun j => Nat.eqb j k) (seq 0 (length (q_options q))).
Proof.
  intros Hq Hc Hi Ho.
  rewrite (read_option _ _ _ _ _ Hq Hc Hi Ho).
  pose proof (question_at_some _ _ Hq) as Hin.
  simpl in Hin. repeat destruct Hin as [<-|Hin]; try contradiction; try discriminate Hi;
    rewrite savedAnswer_hard by reflexivity;
    (destruct k as [|[|[|[|[|k]]]]]; simpl in Ho; [..|destruct k; discriminate];
     try discriminate Ho; injection Ho as <-;
     unfold select_selected; simpl; rewrite ?Hstr, ?Hnum; reflexivity).
Qed.

Lemma js_String_on_ints_int (z : Z) : js_String_on_ints (JNum (inject_Z z)) = Z_to_dec z.
Proof.
  unfold js_String_on_ints, inject_Z, Qred.
  destruct (Z.ggcd z 1) as [g [a b]] eqn:E.
  pose proof (Z.ggcd_gcd z 1) as Hg. pose proof (Z.ggcd_correct_divisors z 1) as Hd.
  rewrite E in Hg, Hd. simpl in Hg, Hd. rewrite Z.gcd_1_r in Hg. subst g.
  destruct Hd as [-> Hb]. rewrite Z.mul_1_l in Hb |- *. subst b. reflexivity.
Qed.

Lemma saved_option_reselected_witness :
  let d := mkDom SQuestionnaire (CQuestion 2) false true true LEmpty in
  let q := mkQuestion "min_ram" Hard None ISelect [OInt 4; OInt 8; OInt 16; OInt 32] false in
  question_at 2 = Some q
  /\ select_selected js_String_on_ints q
       (_savedAnswer q (_saveAnswer q (readCurrentAnswer d 2 (WOption 1)) initial_app))
     = map (fun j => Nat.eqb j 1) (seq 0 (length (q_options q))).
Proof.
  split; [reflexivity|].
  exact (saved_option_reselected js_String_on_ints (fun s => eq_refl) js_String_on_ints_int
           (mkDom SQuestionnaire (CQuestion 2) false true true LEmpty) 2
           (mkQuestion "min_ram" Hard None ISelect [OInt 4; OInt 8; OInt 16; OInt 32] false)
           1 (OInt 8) initial_app eq_refl eq_refl eq_refl eq_refl).
Defined.

Ltac unfold_handlers :=
  unfold step, _onStart, _onContinue, _onBack, _onSkip, _onRestart, _renderCurrent,
    _submit, on_response, with_app, with_dom in *.

Lemma saveAnswer_index (q : Question) (v : JSValue) (a : AppState) :
  currentQuestionIndex (_saveAnswer q v a) = currentQuestionIndex a.
Proof. unfold _saveAnswer. repeat case_match; reflexivity. Qed.

Lemma saveAnswer_skipped (q : Question) (v : JSValue) (a : AppState) :
  skipped (_saveAnswer q v a) = skipped a.
Proof. unfold _saveAnswer. repeat case_match; reflexivity. Qed.

Lemma markSkipped_index (id : string) (a : AppState) :
  currentQuestionIndex (markSkipped id a) = currentQuestionIndex a.
Proof. unfold markSkipped. case_match; reflexivity. Qed.

Lemma step_index_bounds (st : UIState) (e : Event) (st' : UIState) (out : option Payload) :
  step st e = (st', out) ->
  (0 <= currentQuestionIndex (app st) <= last_index)%Z ->
  (0 <= currentQuestionIndex (app st') <= last_index)%Z.
Proof.
  intros Hs Hb. unfold_handlers.
  destruct (enabled st e); simpl in Hs; [|simplify_eq; exact Hb].
  destruct e; unfold decrementIndex, incrementIndex, setLastResults, resetState in *;
    repeat case_match; simplify_eq/=;
    unfold last_index in *; simpl in *;
    rewrite ?saveAnswer_index, ?markSkipped_index in *;
    rewrite ?Z.leb_le, ?Z.leb_gt, ?Z.ltb_lt, ?Z.ltb_ge in *; lia.
Qed.

Lemma question_at_in_range (idx : Z) :
  (0 <= idx <= last_index)%Z -> exists q, question_at idx = Some q.
Proof.
  intros H. unfold last_index in H. simpl in H.
  assert (idx = 0 \/ idx = 1 \/ idx = 2 \/ idx = 3 \/ idx = 4 \/ idx = 5 \/ idx = 6
          \/ idx = 7 \/ idx = 8)%Z as Hc by lia.
  repeat destruct Hc as [->|Hc]; [..|subst]; eexists; reflexivity.
Qed.

Lemma run_index_bounds (evs : list Event) :
  (0 <= currentQuestionIndex (app (fst (run initial_ui evs))) <= last_index)%Z.
Proof.
  apply (UiFacts.run_invariant
           (fun st => (0 <= currentQuestionIndex (app st) <= last_index)%Z)
           (fun _ => True)).
  - intros st e st' out Hs H. split; [exact (step_index_bounds _ _ _ _ Hs H) | done].
  - unfold last_index. simpl. lia.
Qed.

(** In every run from the initial page, the question index stays between 0
    and the last question (8), so [QUESTIONS[idx]] always exists and the
    [if (!q) return] guards of the handlers never fire. *)
Theorem index_always_in_range (evs : list Event) :
  let idx := currentQuestionIndex (app (fst (run initial_ui evs))) in
  (0 <= idx <= 8)%Z /\ exists q, question_at idx = Some q.
Proof.
  intros idx. pose proof (run_index_bounds evs) as H. subst idx.
  split; [exact H | exact (question_at_in_range _ H)].
Qed.

(** A request is only ever sent from the last question: in every reachable
    state, an event that submits a payload is a Skip or Continue click on
    question 8; afterwards the results section shows the loading message,
    the index stays at 8 and one more request is pending. *)
Theorem submit_only_from_last_question (evs : list Event) (e : Event)
    (st' : UIState) (p : Payload) :
  step (fst (run initial_ui evs)) e = (st', Some p) ->
  let st := fst (run initial_ui evs) in
  (e = ESkip \/ exists w, e = EContinue w)
  /\ currentQuestionIndex (app st) = 8%Z
  /\ currentQuestionIndex (app st') = 8%Z
  /\ screen (dom st') = SResults /\ results_list (dom st') = LLoading
  /\ pending st' = S (pending st).
Proof.
  intros Hs st. pose proof (run_index_bounds evs) as Hb. fold st in Hs, Hb |- *.
  clearbody st. unfold_handlers.
  destruct (enabled st e); simpl in Hs; [|discriminate].
  destruct e; unfold decrementIndex, incrementIndex, setLastResults, resetState in *;
    repeat case_match; simplify_eq/=;
    unfold last_index in *; simpl in *;
    rewrite ?saveAnswer_index, ?markSkipped_index in *;
    rewrite ?Z.leb_le, ?Z.leb_gt, ?Z.ltb_lt, ?Z.ltb_ge in *;
    (split; [eauto|]); split_and!; try reflexivity; lia.
Qed.

Lemma submit_only_from_last_question_witness :
  step (fst (run initial_ui [EStart; EContinue (WNumber 50000);
                             ESkip; ESkip; ESkip; ESkip; ESkip; ESkip; ESkip])) ESkip
    = (fst (step (fst (run initial_ui [EStart; EContinue (WNumber 50000);
                             ESkip; ESkip; ESkip; ESkip; ESkip; ESkip; ESkip])) ESkip),
       Some (mkPayload (<["budget" := JNum 50000]> ∅) ∅))
  /\ let st := fst (run initial_ui [EStart; EContinue (WNumber 50000);
                             ESkip; ESkip; ESkip; ESkip; ESkip; ESkip; ESkip]) in
     let st' := fst (step (fst (run initial_ui [EStart; EContinue (WNumber 50000);
                             ESkip; ESkip; ESkip; ESkip; ESkip; ESkip; ESkip])) ESkip) in
     (ESkip = ESkip \/ exists w, ESkip = EContinue w)
     /\ currentQuestionIndex (app st) = 8%Z
     /\ currentQuestionIndex (app st') = 8%Z
     /\ screen (dom st') = SResults /\ results_list (dom st') = LLoading
     /\ pending st' = S (pending st).
Proof.
  assert (H : step (fst (run initial_ui [EStart; EContinue (WNumber 50000);
                             ESkip; ESkip; ESkip; ESkip; ESkip; ESkip; ESkip])) ESkip
    = (fst (step (fst (run initial_ui [EStart; EContinue (WNumber 50000);
                             ESkip; ESkip; ESkip; ESkip; ESkip; ESkip; ESkip])) ESkip),
       Some (mkPayload (<["budget" := JNum 50000]> ∅) ∅))) by (vm_compute; reflexivity).
  split; [exact H|].
  exact (submit_only_from_last_question _ ESkip _ _ H).
Defined.

Lemma existsb_eqb_false (id : string) (l : list string) :
  existsb (String.eqb id) l = false -> ~ In id l.
Proof.
  intros H Hin.
  assert (existsb (String.eqb id) l = true) as Ht.
  { apply existsb_exists. exists id. split; [exact Hin | apply String.eqb_refl]. }
  congruence.
Qed.

Lemma step_skipped_cases (st : UIState) (e : Event) (st' : UIState) (out : option Payload) :
  step st e = (st', out) ->
  skipped (app st') = skipped (app st)
  \/ skipped (app st') = []
  \/ exists q, question_at (currentQuestionIndex (app st)) = Some q
     /\ (skipped (app st') = skipped (markSkipped (q_id q) (app st))
         \/ skipped (app st')
            = List.filter (fun x => negb (String.eqb x (q_id q))) (skipped (app st))).
Proof.
  intros Hs. unfold_handlers.
  destruct (enabled st e); simpl in Hs; [|simplify_eq; auto].
  destruct e; unfold decrementIndex, incrementIndex, setLastResults, resetState in *;
    repeat case_match; simplify_eq/=; auto;
    rewrite ?saveAnswer_skipped in *; right; right; eexists; split; eauto;
    unfold markSkipped; rewrite ?H1; auto.
Qed.

(** In every run, the skipped list of the state module holds no duplicate
    and only ids of questions of [QUESTIONS]: [markSkipped] appends an id
    only when it is absent, [unmarkSkipped] removes every copy, and restart
    empties the list. *)
Theorem skipped_nodup_question_ids (evs : list Event) :
  let sk := skipped (app (fst (run initial_ui evs))) in
  NoDup sk /\ (forall id, In id sk -> exists q, In q QUESTIONS /\ q_id q = id).
Proof.
  apply (UiFacts.run_invariant
           (fun st => NoDup (skipped (app st))
                      /\ (forall id, In id (skipped (app st)) ->
                                     exists q, In q QUESTIONS /\ q_id q = id))
           (fun _ => True)).
  2: { split; [constructor | intros id []]. }
  intros st e st' out Hs [Hnd Hids]. split; [|done].
  destruct (step_skipped_cases _ _ _ _ Hs) as [->|[->|(q & Hq & [->| ->])]].
  - auto.
  - split; [constructor | intros id []].
  - unfold markSkipped. destruct (existsb _ _) eqn:He; simpl; [auto|].
    split.
    + apply NoDup_app. split_and!; [exact Hnd | | apply NoDup_singleton].
      intros x Hx Hx2. apply list_elem_of_singleton in Hx2. subst x.
      apply list_elem_of_In in Hx. exact (existsb_eqb_false _ _ He Hx).
    + intros id Hin. apply in_app_or in Hin as [Hin|[<-|[]]]; [exact (Hids _ Hin)|].
      exists q. split; [exact (question_at_some _ _ Hq) | reflexivity].
  - split.
    + apply NoDup_ListNoDup, List.NoDup_filter, NoDup_ListNoDup, Hnd.
    + intros id Hin. apply List.filter_In in Hin as [Hin _]. exact (Hids _ Hin).
Qed.



(** A Continue click with nothing entered, or with a budget that is not
    greater than zero, is rejected: nothing is submitted, the state module
    is unchanged, the inline error is shown, and the section, the question
    on screen and the pending requests stay as they were. *)
Theorem continue_rejects_invalid (st : UIState) (q : Question) (w : WidgetInput) :
  enabled st (EContinue w) = true ->
  question_at (currentQuestionIndex (app st)) = Some q ->
  w = WBlank \/ (q_id q = "budget" /\ exists x, w = WNumber x /\ (x <= 0)%Q) ->
  let (st', out) := step st (EContinue w) in
  out = None /\ app st' = app st /\ pending st' = pending st
  /\ inline_error (dom st') = true
  /\ screen (dom st') = screen (dom st) /\ container (dom st') = container (dom st).
Proof.
  intros Hen Hq Hw. unfold step. rewrite Hen. simpl.
  unfold _onContinue, with_dom. simpl. rewrite Hq.
  destruct Hw as [->|(Hid & x & -> & Hx)].
  - unfold readCurrentAnswer. rewrite Hq.
    destruct (negb _); [simpl; split_and!; reflexivity|].
    destruct (q_inputType q); simpl; split_and!; reflexivity.
  - unfold readCurrentAnswer. rewrite Hq.
    destruct (negb _); [simpl; split_and!; reflexivity|].
    destruct (q_inputType q); simpl; try (split_and!; reflexivity).
    rewrite Hid. simpl.
    assert (Qle_bool x 0 = true) as Hle by (apply Qle_bool_iff; exact Hx).
    rewrite Hle. simpl. split_and!; reflexivity.
Qed.

Lemma continue_rejects_invalid_witness :
  let st := fst (run initial_ui [EStart]) in
  enabled st (EContinue (WNumber 0)) = true
  /\ question_at (currentQuestionIndex (app st)) = Some (mkQuestion "budget" Hard None INumber [] true)
  /\ (let (st', out) := step st (EContinue (WNumber 0)) in
      out = None /\ app st' = app st /\ pending st' = pending st
      /\ inline_error (dom st') = true
      /\ screen (dom st') = screen (dom st) /\ container (dom st') = container (dom st)).
Proof.
  assert (H1 : enabled (fst (run initial_ui [EStart])) (EContinue (WNumber 0)) = true)
    by reflexivity.
  assert (H2 : question_at (currentQuestionIndex (app (fst (run initial_ui [EStart]))))
               = Some (mkQuestion "budget" Hard None INumber [] true)) by reflexivity.
  split; [exact H1|]. split; [exact H2|].
  apply (continue_rejects_invalid _ _ _ H1 H2).
  right. split; [reflexivity|]. exists 0%Q. split; [reflexivity | apply Qle_refl].
Defined.

Lemma build_cards_ok (l : list JSValue) (n : nat) :
  forallb (fun x => negb (card_throws x)) l = true -> build_cards l n = (LCards (n + length l), false).
Proof.
  revert n. induction l as [|x l IH]; intros n H; simpl.
  - rewrite Nat.add_0_r. reflexivity.
  - simpl in H. apply andb_prop in H as [Hx H].
    destruct (card_throws x); [discriminate|]. rewrite (IH (S n) H). do 2 f_equal. lia.
Qed.

Lemma build_cards_throws (l : list JSValue) (n : nat) :
  forallb (fun x => negb (card_throws x)) l = false -> snd (build_cards l n) = true.
Proof.
  revert n. induction l as [|x l IH]; intros n H; simpl in *; [discriminate|].
  destruct (card_throws x); simpl in *; [reflexivity|]. exact (IH (S n) H).
Qed.

Lemma length_nonzero (x : JSValue) (l : list JSValue) :
  strict_eq_zero (js_length (JArr (x :: l))) = false.
Proof.
  simpl. destruct (Qeq_bool _ _) eqn:E; [|reflexivity].
  apply Qeq_bool_iff in E. unfold Qeq in E. simpl in E. lia.
Qed.

Lemma renderResults_nonempty (x : JSValue) (l : list JSValue) :
  renderResults (JArr (x :: l)) = build_cards (x :: l) 0.
Proof.
  unfold renderResults. change (truthy (JArr (x :: l))) with true.
  rewrite length_nonzero. reflexivity.
Qed.

(** A successful response whose [results] is a non-empty array: the array
    is stored as [lastResults] (before rendering), and if [_buildCard]
    throws on no element the list shows one card per element with the
    section and the question area untouched; if it throws on some element
    (null or undefined, [strengths] or [tradeoffs] truthy but not an array,
    a value whose conversion to a string throws), the catch shows the
    questionnaire with the fatal error, although [lastResults] already holds
    the array. *)
Theorem nonempty_results_response (st : UIState) (r : Response)
    (fs : list (string * JSValue)) (x : JSValue) (l : list JSValue) :
  resp_ok r = true -> resp_body r = Some (JObj fs) ->
  get_field fs "results" = Some (JArr (x :: l)) ->
  let st' := on_response r st in
  lastResults (app st') = JArr (x :: l) /\ pending st' = Nat.pred (pending st)
  /\ (if forallb (fun v => negb (card_throws v)) (x :: l)
      then results_list (dom st') = LCards (S (length l))
           /\ screen (dom st') = screen (dom st)
           /\ container (dom st') = container (dom st)
      else screen (dom st') = SQuestionnaire /\ container (dom st') = CFatal).
Proof.
  intros Hok Hb Hf st'. subst st'.
  destruct (forallb (fun v => negb (card_throws v)) (x :: l)) eqn:Hall;
    unfold on_response; rewrite Hok, Hb; simpl;
    unfold get_prop; rewrite Hf; simpl; rewrite renderResults_nonempty.
  - rewrite (build_cards_ok _ 0 Hall). simpl. split_and!; reflexivity.
  - pose proof (build_cards_throws _ 0 Hall) as Ht.
    destruct (build_cards (x :: l) 0) as [lv threw]. simpl in Ht. subst threw.
    simpl. split_and!; reflexivity.
Qed.

Lemma nonempty_results_response_witness :
  let st := mkUI initial_app (mkDom SResults CEmpty false true true LLoading) 1 in
  let r := mkResponse true (Some (JObj [("results", JArr sample_results)])) in
  let st' := on_response r st in
  lastResults (app st') = JArr sample_results /\ pending st' = Nat.pred (pending st)
  /\ (if forallb (fun v => negb (card_throws v)) sample_results
      then results_list (dom st') = LCards (length sample_results)
           /\ screen (dom st') = screen (dom st)
           /\ container (dom st') = container (dom st)
      else screen (dom st') = SQuestionnaire /\ container (dom st') = CFatal).
Proof.
  exact (nonempty_results_response
           (mkUI initial_app (mkDom SResults CEmpty false true true LLoading) 1)
           (mkResponse true (Some (JObj [("results", JArr sample_results)])))
           _ (hd JNull sample_results) (tl sample_results) eq_refl eq_refl eq_refl).
Defined.

End UiExtraFacts.

(** ** Further properties of js/state.js *)
Module StateHeapExtraFacts.
Import StateHeap.



Lemma same_value_zero_refl (v : Val) : same_value_zero v v = true.
Proof.
  destruct v; simpl; try reflexivity.
  - apply eqb_reflx.
  - apply Qeq_bool_refl.
  - apply String.eqb_refl.
  - apply Pos.eqb_refl.
Qed.

Lemma strict_eq_refl (v : Val) : v <> VNaN -> strict_eq v v = true.
Proof.
  intros Hv. destruct v; try (exact (same_value_zero_refl _)). contradiction.
Qed.

Lemma strict_eq_nan (v : Val) : strict_eq v VNaN = false.
Proof. destruct v; reflexivity. Qed.

Lemma filter_drop_last (id : Val) (xs : list Val) :
  id <> VNaN ->
  List.filter (fun x => negb (strict_eq x id)) (xs ++ [id])
  = List.filter (fun x => negb (strict_eq x id)) xs.
Proof.
  intros Hid. rewrite List.filter_app. simpl. rewrite (strict_eq_refl _ Hid). simpl.
  apply app_nil_r.
Qed.

(** [markSkipped] and [unmarkSkipped] compose as a set would, for every id
    other than [NaN]: after [markSkipped(id)] the id is in the list (as
    [includes] finds it), a second [markSkipped(id)] changes nothing, and
    [unmarkSkipped(id)] afterwards leaves exactly the entries that are not
    [===] to [id], in their order. *)
Theorem mark_unmark_skipped (m : ModState) (xs : list Val) (id : Val) :
  heap m !! skipped m = Some (HArr xs) -> id <> VNaN ->
  exists m1 ys, markSkipped id m = Some m1
    /\ heap m1 !! skipped m1 = Some (HArr ys)
    /\ existsb (same_value_zero id) ys = true
    /\ markSkipped id m1 = Some m1
    /\ exists m2, unmarkSkipped id m1 = Some m2
       /\ heap m2 !! skipped m2
          = Some (HArr (List.filter (fun x => negb (strict_eq x id)) xs)).
Proof.
  intros Hxs Hid. unfold markSkipped. rewrite Hxs.
  destruct (existsb (same_value_zero id) xs) eqn:He.
  - exists m, xs. split_and!; [reflexivity | exact Hxs | exact He | |].
    + rewrite Hxs, He. reflexivity.
    + unfold unmarkSkipped. rewrite Hxs. eexists. split; [reflexivity|].
      simpl. apply lookup_insert_eq.
  - eexists _, (xs ++ [id]). split_and!; [reflexivity | | | |].
    + simpl. apply lookup_insert_eq.
    + apply existsb_exists. exists id. split; [apply in_or_app; right; left; reflexivity|].
      apply same_value_zero_refl.
    + simpl. rewrite lookup_insert_eq.
      assert (existsb (same_value_zero id) (xs ++ [id]) = true) as Hin.
      { apply existsb_exists. exists id.
        split; [apply in_or_app; right; left; reflexivity | apply same_value_zero_refl]. }
      rewrite Hin. reflexivity.
    + unfold unmarkSkipped. simpl. rewrite lookup_insert_eq. eexists. split; [reflexivity|].
      simpl. rewrite lookup_insert_eq. rewrite (filter_drop_last _ _ Hid). reflexivity.
Qed.

Lemma mark_unmark_skipped_witness :
  let m := run_ops initial_mod
             [OMarkSkipped (VStr "os"); OMarkSkipped (VStr "min_ram");
              OMarkSkipped (VStr "budget")] in
  heap m !! skipped m = Some (HArr [VStr "os"; VStr "min_ram"; VStr "budget"])
  /\ VStr "min_ram" <> VNaN
  /\ exists m1 ys, markSkipped (VStr "min_ram") m = Some m1
    /\ heap m1 !! skipped m1 = Some (HArr ys)
    /\ existsb (same_value_zero (VStr "min_ram")) ys = true
    /\ markSkipped (VStr "min_ram") m1 = Some m1
    /\ exists m2, unmarkSkipped (VStr "min_ram") m1 = Some m2
       /\ heap m2 !! skipped m2 = Some (HArr [VStr "os"; VStr "budget"]).
Proof.
  assert (Hxs : heap (run_ops initial_mod
                        [OMarkSkipped (VStr "os"); OMarkSkipped (VStr "min_ram");
                         OMarkSkipped (VStr "budget")])
                  !! skipped (run_ops initial_mod
                        [OMarkSkipped (VStr "os"); OMarkSkipped (VStr "min_ram");
                         OMarkSkipped (VStr "budget")])
                = Some (HArr [VStr "os"; VStr "min_ram"; VStr "budget"]))
    by (vm_compute; reflexivity).
  assert (Hid : VStr "min_ram" <> VNaN) by discriminate.
  exact (conj Hxs (conj Hid (mark_unmark_skipped _ _ _ Hxs Hid))).
Defined.

(** [NaN] can never be taken off the skipped list: [unmarkSkipped(NaN)]
    keeps every entry, since [x !== NaN] holds for every [x], [NaN]
    included, so that a [NaN] added by [markSkipped(NaN)] stays. *)
Theorem nan_never_unmarked (m : ModState) (xs : list Val) :
  heap m !! skipped m = Some (HArr xs) ->
  exists m2, unmarkSkipped VNaN m = Some m2 /\ heap m2 !! skipped m2 = Some (HArr xs).
Proof.
  intros Hxs. unfold unmarkSkipped. rewrite Hxs. eexists. split; [reflexivity|].
  simpl. rewrite lookup_insert_eq. do 2 f_equal. clear Hxs.
  induction xs as [|x xs IH]; [reflexivity|].
  simpl. rewrite strict_eq_nan. simpl. f_equal. exact IH.
Qed.

Lemma nan_never_unmarked_witness :
  let m := run_ops initial_mod [OMarkSkipped (VStr "os"); OMarkSkipped VNaN] in
  heap m !! skipped m = Some (HArr [VStr "os"; VNaN])
  /\ exists m2, unmarkSkipped VNaN m = Some m2
                /\ heap m2 !! skipped m2 = Some (HArr [VStr "os"; VNaN]).
Proof.
  assert (Hxs : heap (run_ops initial_mod [OMarkSkipped (VStr "os"); OMarkSkipped VNaN])
                  !! skipped (run_ops initial_mod [OMarkSkipped (VStr "os"); OMarkSkipped VNaN])
                = Some (HArr [VStr "os"; VNaN]))
    by (vm_compute; reflexivity).
  exact (conj Hxs (nan_never_unmarked _ _ Hxs)).
Defined.

Lemma fresh_state_view (h : gmap positive HObj) (n : positive) :
  h !! n = None -> h !! Pos.succ n = None -> h !! Pos.succ (Pos.succ n) = None
  -> h !! Pos.succ (Pos.succ (Pos.succ n)) = None ->
  view (fresh_state h n) = (0%Z, Some (HRec ∅), Some (HRec ∅), Some (HArr []), inl (Some (HArr []))).
Proof.
  intros H0 H1 H2 H3. unfold view, fresh_state, alloc. simpl.
  rewrite !lookup_insert. repeat case_decide; try lia; reflexivity.
Qed.

(** [resetState()] gives empty constraints, weights, skipped list and
    results, and cuts every object that existed before it (a copy, or an
    array the caller passed to [setLastResults]) off the state: writing to
    such an object afterwards leaves the state unchanged. *)
Theorem reset_detaches_old_objects (m : ModState) :
  wf m ->
  view (resetState m) = (0%Z, Some (HRec ∅), Some (HRec ∅), Some (HArr []), inl (Some (HArr [])))
  /\ forall l o, is_Some (heap m !! l) ->
     view (write_obj l o (resetState m)) = view (resetState m).
Proof.
  intros Hwf. pose proof Hwf as (Hb & _).
  assert (Hnone : forall k, (next_loc m <= k)%positive -> heap m !! k = None).
  { intros k Hk. destruct (heap m !! k) eqn:E; [|reflexivity]. apply Hb in E. lia. }
  split.
  - apply fresh_state_view; apply Hnone; lia.
  - intros l o [o0 Hl]. apply Hb in Hl.
    unfold view, write_obj, resetState, fresh_state, alloc. simpl.
    rewrite !(lookup_insert_ne _ l) by lia. reflexivity.
Qed.

Lemma reset_detaches_old_objects_witness :
  let m := run_ops initial_mod [OAlloc (HArr []); OSetLastResults (VRef 5)] in
  view (resetState m) = (0%Z, Some (HRec ∅), Some (HRec ∅), Some (HArr []), inl (Some (HArr [])))
  /\ forall l o, is_Some (heap m !! l) ->
     view (write_obj l o (resetState m)) = view (resetState m).
Proof.
  exact (reset_detaches_old_objects _ (StateHeapFacts.run_ops_wf _ _ StateHeapFacts.initial_mod_wf)).
Defined.

End StateHeapExtraFacts.
